(** * RedditToTelegram: media resolution, message formatting, delivery and
    failure queue of [reddit_to_telegram.py], embedded as Rocq functions.

    Python [str] values are Rocq strings.  A character is a code point
    below 256, so [isupper], [isspace] and [lower] are given for that
    range.  The pictographs of the message templates are kept as their
    UTF-8 bytes; no function inspects them.

    Effects are explicit: a computation takes the state of the bot and
    of its files and returns a value or an exception together with the
    new state; the network, the file system and the downloader answer
    through the oracles of [World]. *)

From Stdlib Require Import Ascii NArith ZArith Bool Lia.
From Stdlib Require Import OrderedTypeEx.
From stdpp Require Import gmap strings list sorting.

Local Open Scope list_scope.

(** ** Python string primitives *)

Module PyStr.

(** [bool(s)] for a string: the empty string is falsy. *)
Definition truthy (s : string) : bool :=
  match s with
  | EmptyString => false
  | String _ _ => true
  end.

(** [bool(x)] for an optional string ([None] is falsy). *)
Definition truthy_opt (o : option string) : bool :=
  match o with
  | Some s => truthy s
  | None => false
  end.

Definition in_range (lo hi : N) (c : ascii) : bool :=
  (lo <=? N_of_ascii c)%N && (N_of_ascii c <=? hi)%N.

(** [c.isupper()]: A-Z, and the upper-case letters of Latin-1. *)
Definition isupper (c : ascii) : bool :=
  in_range 65 90 c || in_range 192 214 c || in_range 216 222 c.

(** [c.isspace()], which is also what the regex class [\s] accepts. *)
Definition isspace (c : ascii) : bool :=
  in_range 9 13 c || in_range 28 32 c
  || (N_of_ascii c =? 133)%N || (N_of_ascii c =? 160)%N.

Definition isdigit (c : ascii) : bool := in_range 48 57 c.

Definition lower_char (c : ascii) : ascii :=
  if isupper c then ascii_of_N (N_of_ascii c + 32) else c.

(** [s.lower()] *)
Fixpoint lower (s : string) : string :=
  match s with
  | EmptyString => EmptyString
  | String c s' => String (lower_char c) (lower s')
  end.

(** [needle in hay] *)
Fixpoint contains (needle hay : string) : bool :=
  String.prefix needle hay
  || match hay with
     | EmptyString => false
     | String _ hay' => contains needle hay'
     end.

(** [any(ext in s for ext in exts)] *)
Definition any_in (exts : list string) (s : string) : bool :=
  existsb (fun ext => contains ext s) exts.

(** [s.replace(old, new)] for a non-empty [old]: occurrences are taken
    left to right and do not overlap.  [skip] counts the characters of
    an occurrence that remain to be dropped. *)
Fixpoint replace_go (old new : string) (skip : nat) (s : string) : string :=
  match s with
  | EmptyString => EmptyString
  | String c s' =>
      match skip with
      | S k => replace_go old new k s'
      | O =>
          if String.prefix old s
          then new +:+ replace_go old new (String.length old - 1) s'
          else String c (replace_go old new 0 s')
      end
  end.

Definition replace (old new s : string) : string := replace_go old new 0 s.

(** [s.split(sep)[0]] for a one-character separator. *)
Fixpoint before_char (sep : ascii) (s : string) : string :=
  match s with
  | EmptyString => EmptyString
  | String c s' =>
      if Ascii.eqb c sep then EmptyString else String c (before_char sep s')
  end.

Fixpoint lstrip (s : string) : string :=
  match s with
  | EmptyString => EmptyString
  | String c s' => if isspace c then lstrip s' else s
  end.

Fixpoint rstrip (s : string) : string :=
  match s with
  | EmptyString => EmptyString
  | String c s' =>
      match rstrip s' with
      | EmptyString => if isspace c then EmptyString else String c EmptyString
      | r => String c r
      end
  end.

(** [s.strip()] *)
Definition strip (s : string) : string := rstrip (lstrip s).

(** [s.split()]: the maximal runs of non-space characters.  [cur] is
    the run being read. *)
Fixpoint split_go (cur : string) (s : string) : list string :=
  match s with
  | EmptyString => if truthy cur then [cur] else []
  | String c s' =>
      if isspace c
      then (if truthy cur then cur :: split_go EmptyString s'
            else split_go EmptyString s')
      else split_go (cur +:+ String c EmptyString) s'
  end.

Definition split (s : string) : list string := split_go EmptyString s.

(** The line feed of the message templates. *)
Definition nl : string := String "010"%char EmptyString.

(** [re.sub('[...]', '', s)] for a character class. *)
Fixpoint remove_chars (cls : ascii -> bool) (s : string) : string :=
  match s with
  | EmptyString => EmptyString
  | String c s' =>
      if cls c then remove_chars cls s' else String c (remove_chars cls s')
  end.

End PyStr.

(** ** MessageFormatter: the subject name *)

Module Formatter.
Import PyStr.

Definition pipe : ascii := "|"%char.

(** Length of the longest prefix without a pipe: what the greedy
    [[^|]+] first consumes. *)
Fixpoint span_not_pipe (s : string) : nat :=
  match s with
  | EmptyString => 0
  | String c s' => if Ascii.eqb c pipe then 0 else S (span_not_pipe s')
  end.

(** [\s*\|] matched at the head of [s]. *)
Definition spaces_then_pipe (s : string) : bool :=
  match lstrip s with
  | String c _ => Ascii.eqb c pipe
  | EmptyString => false
  end.

(** The backtracking of [[^|]+]: group lengths from [k] down to 1. *)
Fixpoint try_group (k : nat) (title : string) : option string :=
  match k with
  | O => None
  | S k' =>
      if spaces_then_pipe (String.substring k (String.length title - k) title)
      then Some (String.substring 0 k title)
      else try_group k' title
  end.

(** [re.search(r'^([^|]+)\s*\|', title)], returning group 1. *)
Definition search_name_pattern (title : string) : option string :=
  try_group (span_not_pipe title) title.

(** The character class that [re.sub] deletes from the candidate name:
    the digits, the listed symbols (the double quote is character 34),
    and the space that the source has between the colon and the comma. *)
Definition removed_class (c : ascii) : bool :=
  isdigit c
  || existsb (Ascii.eqb c)
       [ "@"; "#"; "$"; "%"; "^"; "&"; "*"; "("; ")"; "_"; "+"; "=";
         "["; "]"; "{"; "}"; ";"; "'"; "034"; ":"; " "; ","; ".";
         "<"; ">"; "?"; "/"; "~"; "`" ]%char.

(** [word[0].isupper() and len(word) > 1] *)
Definition looks_like_name (word : string) : bool :=
  match word with
  | String c _ => isupper c && (1 <? String.length word)%nat
  | EmptyString => false
  end.

Definition extract_model_name (title : string) : option string :=
  match search_name_pattern title with
  | Some group1 =>
      let potential_name := strip group1 in
      let clean_name := remove_chars removed_class potential_name in
      let words := split clean_name in
      let has_proper_name :=
        existsb looks_like_name (List.filter truthy words) in
      if has_proper_name then Some potential_name else None
  | None => None
  end.

End Formatter.

(** ** Data model *)

Module Model.

(** An element of [media_info['p']]: width, height, address. *)
Record PreviewVariant := {
  pv_x : option Z;
  pv_y : option Z;
  pv_u : option string }.

(** [media_info['s']] and the elements of [media_info['o']]. *)
Record SourceVariant := { sv_u : option string }.

(** A value of the [media_metadata] dictionary.  [None] in a field means
    that the key is absent. *)
Record MediaInfo := {
  mi_e : option string;
  mi_s : option SourceVariant;
  mi_o : option (list SourceVariant);
  mi_p : option (list PreviewVariant);
  mi_hlsUrl : option string;
  mi_dashUrl : option string }.

Record RedditVideo := { fallback_url : option string }.
Record Oembed := { thumbnail_url : option string }.

(** [post.media]; [media_other_keys] tells whether the dictionary has
    keys besides the two that the program reads. *)
Record Media := {
  reddit_video : option RedditVideo;
  oembed : option Oembed;
  media_other_keys : bool }.

Record PreviewSource := { source_url : option string }.
Record PreviewImage := { source : option PreviewSource }.

Record Preview := {
  images : option (list PreviewImage);
  reddit_video_preview : option RedditVideo;
  preview_other_keys : bool }.

(** A submission.  An option-valued attribute is [None] when the
    attribute is missing or holds [None]. *)
Record Post := {
  p_id : string;
  p_title : string;
  p_permalink : string;
  p_url : string;
  p_is_self : bool;
  p_is_video : option bool;
  p_over_18 : option bool;
  p_media : option Media;
  p_media_metadata : option (gmap string MediaInfo);
  p_preview : option Preview }.

(** [bool(d)] for the dictionaries above. *)
Definition media_truthy (m : option Media) : bool :=
  match m with
  | Some d => bool_decide (is_Some (reddit_video d))
              || bool_decide (is_Some (oembed d)) || media_other_keys d
  | None => false
  end.

Definition preview_truthy (p : option Preview) : bool :=
  match p with
  | Some d => bool_decide (is_Some (images d))
              || bool_decide (is_Some (reddit_video_preview d))
              || preview_other_keys d
  | None => false
  end.

Definition metadata_truthy (m : option (gmap string MediaInfo)) : bool :=
  match m with
  | Some d => negb (bool_decide (d = ∅))
  | None => false
  end.

Definition flag (b : option bool) : bool := default false b.

(** The section [telegram] of [config.json]; a key that is missing is
    [None]. *)
Record Telegram := {
  bot_token : option string;
  chat_id : option string }.

(** The entries of [config.json] that the bot reads from its
    configuration; an entry that is missing is [None].  The credentials
    and the list of subreddits are read by indexing, which raises
    [KeyError] on a missing key; the other three are read with
    [config.get]. *)
Record Config := {
  telegram : option Telegram;
  debug_emoji : option bool;
  send_text_only_posts : option bool;
  bot_link : option string;
  subreddits : option (list string) }.

(** An element of [failed_messages]. *)
Record FailureRecord := {
  fr_message : string;
  fr_media_url : option string;
  fr_post_url : option string;
  fr_timestamp : string;
  fr_retry_count : nat }.

(** What a state file holds when the program opens it. *)
Inductive StateFile (A : Type) :=
| Missing
| Unreadable
| Garbled
| Stored (content : A).
Arguments Missing {A}.
Arguments Unreadable {A}.
Arguments Garbled {A}.
Arguments Stored {A} content.

(** Exceptions, as far as the handlers of the program tell them apart. *)
Inductive Exn :=
| KeyError
| FileNotFoundError
| PermissionError
| JSONDecodeError
| RequestException
| TimeoutExpired
| NameError
| ValueError
| OverflowError
| OtherError.

Definition is_request_exception (e : Exn) : bool :=
  match e with RequestException => true | _ => false end.

Definition is_file_not_found (e : Exn) : bool :=
  match e with FileNotFoundError => true | _ => false end.

Definition is_timeout_expired (e : Exn) : bool :=
  match e with TimeoutExpired => true | _ => false end.

Inductive Outcome (A : Type) :=
| Ret (a : A)
| Raise (e : Exn).
Arguments Ret {A} a.
Arguments Raise {A} e.

(** Requests to the messaging endpoint: token, chat, and payload. *)
Inductive Request :=
| SendMessage (token chat text : string)
| SendPhoto (token chat photo caption : string)
| SendVideo (token chat path caption : string).

(** [requests.post] followed by [raise_for_status]. *)
Inductive HttpAnswer :=
| Delivered
| RequestFailed
| Crashed.

(** [requests.get] with [raise_for_status], then the streamed body. *)
Inductive GetAnswer :=
| Fetched (stream_ok : bool)
| FetchFailed.

(** [subprocess.run] of the downloader. *)
Inductive RunAnswer :=
| Exited (returncode : Z)
| TimedOut
| SpawnFailed.

Inductive WriteAnswer :=
| Written
| WriteRefused
| WriteTorn.

Inductive Event :=
| EvPost (r : Request) (a : HttpAnswer)
| EvGet (address : string) (a : GetAnswer)
| EvTranscode (page : string) (a : RunAnswer)
| EvSleep (seconds : nat).

(** The environment: the answer to the interaction made at each tick.
    Every interaction of the program reads the answer at the current
    [clock] and advances the clock by one. *)
Record World := {
  w_post : nat -> HttpAnswer;
  w_get : nat -> GetAnswer;
  w_mktemp : nat -> option string;
  w_run : nat -> RunAnswer;
  w_glob : nat -> list (string * nat);
  w_unlink_ok : nat -> bool;
  w_exists : nat -> string -> bool;
  w_open_ok : nat -> bool;
  w_write : nat -> WriteAnswer;
  w_now : nat -> string }.

(** The bot object, its two state files, and the trace (newest first). *)
Record State := {
  config : Config;
  processed_posts : gset string;
  failed_messages : list FailureRecord;
  failed_file : StateFile (list FailureRecord);
  processed_file : StateFile (gset string);
  events : list Event;
  clock : nat }.

End Model.

(** ** State and exceptions *)

Module Effects.
Import Model.

(** A computation runs on a state and returns a value or raises; the
    state survives an exception. *)
Definition M (A : Type) : Type := State -> Outcome A * State.

Definition ret {A} (a : A) : M A := fun st => (Ret a, st).

Definition raise {A} (e : Exn) : M A := fun st => (Raise e, st).

Definition bind {A B} (m : M A) (k : A -> M B) : M B :=
  fun st =>
    match m st with
    | (Ret a, st') => k a st'
    | (Raise e, st') => (Raise e, st')
    end.

(** [try: body except ...: handler]; the handler answers [None] for an
    exception that no [except] clause matches. *)
Definition try_except {A} (body : M A) (handler : Exn -> option (M A)) : M A :=
  fun st =>
    match body st with
    | (Ret a, st') => (Ret a, st')
    | (Raise e, st') =>
        match handler e with
        | Some h => h st'
        | None => (Raise e, st')
        end
    end.

(** [except Exception] *)
Definition except_all {A} (h : M A) : Exn -> option (M A) := fun _ => Some h.

(** [except cls] for one class of exceptions. *)
Definition except_only {A} (cls : Exn -> bool) (h : M A) : Exn -> option (M A) :=
  fun e => if cls e then Some h else None.

Definition lift {A} (o : Outcome A) : M A := fun st => (o, st).

Definition get_state : M State := fun st => (Ret st, st).

Definition modify (f : State -> State) : M unit := fun st => (Ret tt, f st).

Declare Scope effect_scope.
Delimit Scope effect_scope with eff.
Notation "'let*' x ':=' c 'in' k" := (bind c (fun x => k))
  (at level 10, x name, c at level 100, k at level 200) : effect_scope.
Notation "c '>>' k" := (bind c (fun _ => k))
  (at level 100, k at level 200, right associativity) : effect_scope.

Definition set_clock (n : nat) (st : State) : State :=
  {| config := config st; processed_posts := processed_posts st;
     failed_messages := failed_messages st; failed_file := failed_file st;
     processed_file := processed_file st; events := events st; clock := n |}.

Definition set_events (l : list Event) (st : State) : State :=
  {| config := config st; processed_posts := processed_posts st;
     failed_messages := failed_messages st; failed_file := failed_file st;
     processed_file := processed_file st; events := l; clock := clock st |}.

Definition set_failed_messages (l : list FailureRecord) (st : State) : State :=
  {| config := config st; processed_posts := processed_posts st;
     failed_messages := l; failed_file := failed_file st;
     processed_file := processed_file st; events := events st;
     clock := clock st |}.

Definition set_failed_file (f : StateFile (list FailureRecord)) (st : State) : State :=
  {| config := config st; processed_posts := processed_posts st;
     failed_messages := failed_messages st; failed_file := f;
     processed_file := processed_file st; events := events st;
     clock := clock st |}.

Definition set_processed_posts (s : gset string) (st : State) : State :=
  {| config := config st; processed_posts := s;
     failed_messages := failed_messages st; failed_file := failed_file st;
     processed_file := processed_file st; events := events st;
     clock := clock st |}.

Definition set_processed_file (f : StateFile (gset string)) (st : State) : State :=
  {| config := config st; processed_posts := processed_posts st;
     failed_messages := failed_messages st; failed_file := failed_file st;
     processed_file := f; events := events st; clock := clock st |}.

(** One interaction with the environment: read the clock, advance it. *)
Definition tick : M nat :=
  fun st => (Ret (clock st), set_clock (S (clock st)) st).

Definition emit (e : Event) : M unit :=
  modify (fun st => set_events (e :: events st) st).

(** What a write leaves in a file. *)
Definition written {A} (a : WriteAnswer) (old : StateFile A) (content : A) : StateFile A :=
  match a with
  | Written => Stored content
  | WriteRefused => old
  | WriteTorn => Garbled
  end.

Definition write_raises (a : WriteAnswer) : bool :=
  match a with Written => false | _ => true end.

End Effects.

(** ** MediaResolver *)

Module Resolver.
Import PyStr Model Effects.
Local Open Scope effect_scope.

(** The order of [sorted] on strings. *)
Definition str_le (a b : string) : Prop := String.leb a b = true.

#[global] Instance str_le_dec : RelDecision str_le.
Proof. intros a b. unfold str_le. apply _. Defined.

(** [sorted(post.media_metadata.keys())] *)
Definition sorted_media_ids (m : gmap string MediaInfo) : list string :=
  merge_sort str_le (map fst (map_to_list m)).

(** The loops over the sorted keys: [pick] is the body, which either
    assigns the address and breaks, or goes on to the next key. *)
Fixpoint first_pick (pick : MediaInfo -> option string)
    (m : gmap string MediaInfo) (ids : list string) : option (string * string) :=
  match ids with
  | [] => None
  | media_id :: ids' =>
      match m !! media_id with
      | Some media_info =>
          match pick media_info with
          | Some u => Some (media_id, u)
          | None => first_pick pick m ids'
          end
      | None => first_pick pick m ids'
      end
  end.

(** [max(l, key=key)] on a non-empty list [best :: l]: the first of the
    elements with the largest key. *)
Fixpoint max_by {A} (key : A -> Z) (best : A) (l : list A) : A :=
  match l with
  | [] => best
  | x :: l' => if (key best <? key x)%Z then max_by key x l' else max_by key best l'
  end.

(** [x.get('x', 0) * x.get('y', 0)] *)
Definition area (v : PreviewVariant) : Z :=
  (default 0 (pv_x v) * default 0 (pv_y v))%Z.

(** [media_info['o'][0]['u']] when the three tests of the [elif] hold. *)
Definition original_url (media_info : MediaInfo) : option string :=
  match mi_o media_info with
  | Some (o0 :: _) => sv_u o0
  | _ => None
  end.

(** The address of the largest preview, when [media_info['p']] is not
    empty and the largest preview has an address. *)
Definition largest_preview_url (media_info : MediaInfo) : option string :=
  match mi_p media_info with
  | Some (p0 :: ps) => pv_u (max_by area p0 ps)
  | _ => None
  end.

(** Body of the image loop for one entry. *)
Definition pick_image (media_info : MediaInfo) : option string :=
  if bool_decide (mi_e media_info = Some "Image") then
    match mi_s media_info ≫= sv_u with
    | Some u => Some u
    | None =>
        match original_url media_info with
        | Some u => Some u
        | None => largest_preview_url media_info
        end
    end
  else None.

Definition image_extensions : list string :=
  [".jpg"; ".jpeg"; ".png"; ".gif"; ".webp"].

(** Method 1 of [download_reddit_image]: the entry and its address. *)
Definition image_from_metadata (post : Post) : option (string * string) :=
  if metadata_truthy (p_media_metadata post) then
    match p_media_metadata post with
    | Some m => first_pick pick_image m (sorted_media_ids m)
    | None => None
    end
  else None.

(** Method 2: the address of the post itself. *)
Definition image_from_url (post : Post) (image_url : option string) : option string :=
  if negb (truthy_opt image_url) && negb (p_is_self post) then
    if any_in image_extensions (lower (p_url post)) then Some (p_url post)
    else image_url
  else image_url.

(** Method 3: the first image of the preview. *)
Definition image_from_preview (post : Post) (image_url : option string) : option string :=
  if negb (truthy_opt image_url) && preview_truthy (p_preview post) then
    match p_preview post ≫= images with
    | Some (preview_image :: _) =>
        match source preview_image ≫= source_url with
        | Some u => Some u
        | None => image_url
        end
    | _ => image_url
    end
  else image_url.

Definition download_reddit_image (post : Post) : option string :=
  let image_url := snd <$> image_from_metadata post in
  let image_url := image_from_url post image_url in
  let image_url := image_from_preview post image_url in
  match image_url with
  | Some u => if truthy u then Some (replace "&amp;" "&" u) else None
  | None => None
  end.

(** Body of the video loop for one entry. *)
Definition pick_video (media_info : MediaInfo) : option string :=
  if bool_decide (mi_e media_info = Some "RedditVideo") then
    match mi_hlsUrl media_info with
    | Some u => Some u
    | None => mi_dashUrl media_info
    end
  else None.

(** [d['reddit_video']['fallback_url']] *)
Definition fallback_of (rv : RedditVideo) : Outcome (option string) :=
  match fallback_url rv with
  | Some u => Ret (Some u)
  | None => Raise KeyError
  end.

Definition obind {A B} (o : Outcome A) (k : A -> Outcome B) : Outcome B :=
  match o with
  | Ret a => k a
  | Raise e => Raise e
  end.

(** Methods 1 and 2 of [download_reddit_video]: the [if]/[elif]. *)
Definition video_direct (post : Post) : Outcome (option string) :=
  if flag (p_is_video post) then
    obind
      (if media_truthy (p_media post) then
         match p_media post ≫= reddit_video with
         | Some rv => fallback_of rv
         | None =>
             match p_media post ≫= oembed with
             | Some oe => Ret (thumbnail_url oe)
             | None => Ret None
             end
         end
       else Ret None)
      (fun video_url =>
         if negb (truthy_opt video_url) && contains "v.redd.it" (p_url post)
         then Ret (Some (p_url post +:+ "/DASH_720.mp4"))
         else Ret video_url)
  else if p_is_self post && media_truthy (p_media post) then
    match p_media post ≫= reddit_video with
    | Some rv => fallback_of rv
    | None => Ret None
    end
  else Ret None.

(** Method 3: the entry and the address the loop stops at. *)
Definition video_entry (post : Post) : option (string * string) :=
  match p_media_metadata post with
  | Some m => first_pick pick_video m (sorted_media_ids m)
  | None => None
  end.

Definition video_from_metadata (post : Post) (video_url : option string)
    : option string :=
  if negb (truthy_opt video_url) && metadata_truthy (p_media_metadata post) then
    match video_entry post with
    | Some (_, u) => Some u
    | None => video_url
    end
  else video_url.

(** Method 4. *)
Definition video_from_preview (post : Post) (video_url : option string)
    : Outcome (option string) :=
  if negb (truthy_opt video_url) && preview_truthy (p_preview post) then
    match p_preview post ≫= reddit_video_preview with
    | Some rv => fallback_of rv
    | None => Ret video_url
    end
  else Ret video_url.

(** The value of [video_url] when the four methods have run. *)
Definition select_video_url (post : Post) : Outcome (option string) :=
  obind (video_direct post) (fun video_url =>
    video_from_preview post (video_from_metadata post video_url)).

Definition manifest_markers : list string :=
  ["HLSPlaylist.m3u8"; "DASHPlaylist.mpd"].

Definition is_manifest (video_url : string) : bool :=
  contains "HLSPlaylist.m3u8" video_url || contains "DASHPlaylist.mpd" video_url.

(** Query parameters are kept for manifests only. *)
Definition strip_query (video_url : string) : string :=
  if negb (any_in manifest_markers video_url)
  then before_char "?" video_url
  else video_url.

Section WithWorld.
Variable w : World.

(** [tempfile.NamedTemporaryFile(delete=False, suffix='.mp4')] *)
Definition named_temporary_file : M string :=
  let* n := tick in
  match w_mktemp w n with
  | Some name => ret name
  | None => raise PermissionError
  end.

(** [if os.path.exists(name): os.unlink(name)] *)
Definition unlink_if_exists : M unit :=
  let* n := tick in
  if w_unlink_ok w n then ret tt else raise PermissionError.

(** [subprocess.run(cmd, ..., timeout=180)] of the downloader on the
    page of the post. *)
Definition run_downloader (reddit_url : string) : M Z :=
  let* n := tick in
  emit (EvTranscode reddit_url (w_run w n)) >>
  match w_run w n with
  | Exited returncode => ret returncode
  | TimedOut => raise TimeoutExpired
  | SpawnFailed => raise FileNotFoundError
  end.

(** The first file of [glob.glob(base_name + '.*')] that exists and
    is not empty; files are listed with their sizes. *)
Definition find_downloaded : M (option string) :=
  let* n := tick in
  match List.find (fun f => (0 <? snd f)%nat) (w_glob w n) with
  | Some (downloaded_file, _) =>
      if truthy downloaded_file then ret (Some downloaded_file) else ret None
  | None => ret None
  end.

(** [yt-dlp --list-formats], run for the log; its failures are
    caught on the spot. *)
Definition list_formats : M unit :=
  let* _ := tick in ret tt.

(** The inner [try] of [convert_hls_to_mp4]: both [except] clauses
    remove the temporary file and return [None]. *)
Definition run_and_collect (reddit_url : string) : M (option string) :=
  try_except
    (let* returncode := run_downloader reddit_url in
     if (returncode =? 0)%Z then find_downloaded
     else list_formats >> unlink_if_exists >> ret None)
    (fun e =>
       if is_timeout_expired e then Some (unlink_if_exists >> ret None)
       else Some (unlink_if_exists >> ret None)).

(** The outer handlers return [None]; the second one first removes
    the temporary file, when the failure came after its creation. *)
Definition convert_hls_to_mp4 (reddit_url : string) : M (option string) :=
  let* temp_file :=
    try_except (let* name := named_temporary_file in ret (Some name))
               (except_all (ret None)) in
  match temp_file with
  | None => ret None
  | Some _ =>
      try_except (run_and_collect reddit_url)
        (fun e =>
           if is_file_not_found e then Some (ret None)
           else Some (unlink_if_exists >> ret None))
  end.

(** [requests.get(video_url, timeout=60, stream=True)], the temporary
    file, and the copy of the body into it. *)
Definition fetch_to_temp (video_url : string) : M (option string) :=
  let* n := tick in
  emit (EvGet video_url (w_get w n)) >>
  match w_get w n with
  | FetchFailed => raise RequestException
  | Fetched stream_ok =>
      let* name := named_temporary_file in
      if stream_ok then ret (Some name) else raise RequestException
  end.

Definition download_reddit_video (post : Post) : M (option string) :=
  try_except
    (let* video_url := lift (select_video_url post) in
     match video_url with
     | Some u =>
         if truthy u then
           let video_url := strip_query u in
           if is_manifest video_url then convert_hls_to_mp4 (p_url post)
           else fetch_to_temp video_url
         else ret None
     | None => ret None
     end)
    (except_all (ret None)).

End WithWorld.

End Resolver.

(** ** Persisted state, FailureQueue and DeliveryClient *)

Module Delivery.
Import PyStr Model Effects.
Local Open Scope effect_scope.

(** [open(path, 'r')] followed by [json.load]. *)
Definition read_json {A} (f : StateFile A) : Outcome A :=
  match f with
  | Missing => Raise FileNotFoundError
  | Unreadable => Raise PermissionError
  | Garbled => Raise JSONDecodeError
  | Stored content => Ret content
  end.

(** [os.path.exists(path)] *)
Definition path_exists {A} (f : StateFile A) : bool :=
  match f with
  | Missing => false
  | _ => true
  end.

(** Only [FileNotFoundError] is handled. *)
Definition load_processed_posts (f : StateFile (gset string)) : Outcome (gset string) :=
  match read_json f with
  | Ret ids => Ret ids
  | Raise e => if is_file_not_found e then Ret ∅ else Raise e
  end.

(** Every exception is handled, and the function then falls through to
    [return []]. *)
Definition load_failed_messages (f : StateFile (list FailureRecord))
    : Outcome (list FailureRecord) :=
  if path_exists f then
    match read_json f with
    | Ret records => Ret records
    | Raise _ => Ret []
    end
  else Ret [].

(** [a or b] on optional strings. *)
Definition py_or (a b : option string) : option string :=
  if truthy_opt a then a else b.

Definition bump (r : FailureRecord) : FailureRecord :=
  {| fr_message := fr_message r; fr_media_url := fr_media_url r;
     fr_post_url := fr_post_url r; fr_timestamp := fr_timestamp r;
     fr_retry_count := S (fr_retry_count r) |}.

Section WithWorld.
Variable w : World.

(** [save_processed_posts] has no handler: a failed write raises. *)
Definition save_processed_posts : M unit :=
  let* n := tick in
  modify (fun st =>
    set_processed_file
      (written (w_write w n) (processed_file st) (processed_posts st)) st) >>
  if write_raises (w_write w n) then raise PermissionError else ret tt.

Definition save_failed_messages : M unit :=
  try_except
    (let* n := tick in
     modify (fun st =>
       set_failed_file
         (written (w_write w n) (failed_file st) (failed_messages st)) st) >>
     if write_raises (w_write w n) then raise PermissionError else ret tt)
    (except_all (ret tt)).

Definition add_failed_message (message : string)
    (media_url post_url : option string) : M unit :=
  let* n := tick in
  let failed_msg :=
    {| fr_message := message; fr_media_url := media_url;
       fr_post_url := post_url; fr_timestamp := w_now w n;
       fr_retry_count := 0 |} in
  modify (fun st => set_failed_messages (failed_messages st ++ [failed_msg]) st) >>
  save_failed_messages.

(** [self.config['telegram']['bot_token']], then
    [self.config['telegram']['chat_id']]: the token and the chat, or the
    [KeyError] of the first key that is missing. *)
Definition credentials (cfg : Config) : Outcome (string * string) :=
  match telegram cfg with
  | Some section =>
      match bot_token section with
      | Some token =>
          match chat_id section with
          | Some chat => Ret (token, chat)
          | None => Raise KeyError
          end
      | None => Raise KeyError
      end
  | None => Raise KeyError
  end.

(** [requests.post(...)] and [response.raise_for_status()]. *)
Definition requests_post (r : Request) : M unit :=
  let* n := tick in
  emit (EvPost r (w_post w n)) >>
  match w_post w n with
  | Delivered => ret tt
  | RequestFailed => raise RequestException
  | Crashed => raise OtherError
  end.

Definition send_text_message (message : string) : M bool :=
  let* st := get_state in
  let* keys := lift (credentials (config st)) in
  let bot_token := fst keys in
  let chat_id := snd keys in
  try_except
    (requests_post (SendMessage bot_token chat_id message) >> ret true)
    (except_all (ret false)).

(** [failed_msg['retry_count'] += 1] on the element at index [i], then
    the test against the ceiling. *)
Definition count_failure (i : nat) (failed_msg : FailureRecord) : M (list nat) :=
  modify (fun st =>
    set_failed_messages (<[i := bump failed_msg]> (failed_messages st)) st) >>
  if (3 <=? fr_retry_count (bump failed_msg))%nat then ret [i] else ret [].

Definition retry_text (failed_msg : FailureRecord) : string :=
  match fr_post_url failed_msg with
  | Some u =>
      if truthy u
      then fr_message failed_msg +:+ nl +:+ nl
           +:+ "🔗 [Ver post original](" +:+ u +:+ ")"
      else fr_message failed_msg
  | None => fr_message failed_msg
  end.

(** The [for i, failed_msg in enumerate(self.failed_messages)] loop;
    the result is [messages_to_remove]. *)
Fixpoint retry_each (i : nat) (pending : list FailureRecord) : M (list nat) :=
  match pending with
  | [] => ret []
  | failed_msg :: rest =>
      let* marked :=
        try_except
          (let* sent := send_text_message (retry_text failed_msg) in
           if sent then ret [i] else count_failure i failed_msg)
          (except_all (count_failure i failed_msg)) in
      let* others := retry_each (S i) rest in
      ret (marked ++ others)
  end.

(** [for i in reversed(messages_to_remove): self.failed_messages.pop(i)] *)
Definition pop_reversed (messages_to_remove : list nat)
    (l : list FailureRecord) : list FailureRecord :=
  foldr (fun i acc => delete i acc) l messages_to_remove.

Definition retry_failed_messages : M unit :=
  let* st := get_state in
  match failed_messages st with
  | [] => ret tt
  | _ =>
      let* messages_to_remove := retry_each 0 (failed_messages st) in
      modify (fun st =>
        set_failed_messages
          (pop_reversed messages_to_remove (failed_messages st)) st) >>
      match messages_to_remove with
      | [] => ret tt
      | _ => save_failed_messages
      end
  end.

Definition photo_extensions : list string :=
  [".jpg"; ".jpeg"; ".png"; ".gif"].

Definition origin_link (post_url : option string) : string :=
  match post_url with
  | Some u =>
      if truthy u then nl +:+ "📝 [Ver post original](" +:+ u +:+ ")"
      else EmptyString
  | None => EmptyString
  end.

Definition video_fallback (message : string) (post_url : option string) : string :=
  message +:+ nl +:+ nl +:+ "⚠️ Vídeo não pôde ser enviado" +:+ origin_link post_url.

Definition photo_fallback (message media_url : string)
    (post_url : option string) (is_nsfw : bool) : string :=
  (if is_nsfw
   then message +:+ nl +:+ nl +:+ "⚠️ Conteúdo não pôde ser enviado"
   else message +:+ nl +:+ nl +:+ "⚠️ Imagem não pôde ser enviada" +:+ nl
        +:+ "🔗 Link: " +:+ media_url)
  +:+ origin_link post_url.

(** [video_file_path and os.path.exists(video_file_path)] *)
Definition local_video (video_file_path : option string) : M (option string) :=
  match video_file_path with
  | Some path =>
      if truthy path then
        let* n := tick in
        if w_exists w n path then ret (Some path) else ret None
      else ret None
  | None => ret None
  end.

(** [open(video_file_path, 'rb')] *)
Definition open_video : M unit :=
  let* n := tick in
  if w_open_ok w n then ret tt else raise PermissionError.

(** [media_url and any(ext in media_url.lower() for ext in [...])] *)
Definition photo_address (media_url : option string) : option string :=
  match media_url with
  | Some u =>
      if truthy u && any_in photo_extensions (lower u) then Some u else None
  | None => None
  end.

Definition send_telegram_message (message : string)
    (media_url video_file_path post_url : option string) (is_nsfw : bool)
    : M bool :=
  let* st := get_state in
  let* keys := lift (credentials (config st)) in
  let bot_token := fst keys in
  let chat_id := snd keys in
  try_except
    (let* video := local_video video_file_path in
     match video with
     | Some path =>
         try_except
           (open_video >>
            requests_post (SendVideo bot_token chat_id path message) >>
            ret true)
           (except_only is_request_exception
              (add_failed_message message video_file_path post_url >>
               send_text_message (video_fallback message post_url)))
     | None =>
         match photo_address media_url with
         | Some photo =>
             try_except
               (requests_post (SendPhoto bot_token chat_id photo message) >>
                ret true)
               (except_only is_request_exception
                  (add_failed_message message media_url post_url >>
                   send_text_message
                     (photo_fallback message photo post_url is_nsfw)))
         | None => send_text_message message
         end
     end)
    (except_all
       ((if truthy_opt media_url || truthy_opt video_file_path
         then add_failed_message message (py_or media_url video_file_path) post_url
         else ret tt) >>
        ret false)).

End WithWorld.

End Delivery.

(** ** MessageFormatter: the message *)

Module Message.
Import PyStr Model Formatter.

Definition video_extensions : list string := [".mp4"; ".webm"; ".mov"].

(** The content-type glyph. *)
Definition glyph (cfg : Config) (post : Post) : string :=
  if default true (debug_emoji cfg) then
    if flag (p_is_video post) then "🎥"
    else if truthy (p_url post) && negb (p_is_self post) then
      if any_in Resolver.image_extensions (lower (p_url post)) then "🖼️"
      else if any_in video_extensions (lower (p_url post)) then "🎬"
      else if contains "youtube.com" (lower (p_url post))
              || contains "youtu.be" (lower (p_url post)) then "📺"
      else if contains "reddit.com/gallery" (lower (p_url post)) then "🖼️"
      else "🔗"
    else "📝"
  else EmptyString.

Definition standard_message (model_name : option string) (link : string) : string :=
  (match model_name with
   | Some name =>
       if truthy name
       then "🔥 *" +:+ name +:+ "* • *COMPLETO NO VIP* 🔥"
       else "🔥 *COMPLETO NO VIP* 🔥"
   | None => "🔥 *COMPLETO NO VIP* 🔥"
   end)
  +:+ nl +:+ nl +:+ "💎 Quer acessar o melhor conteúdo exclusivo?" +:+ nl
  +:+ "🎯 *Conteúdo Premium*: Curadoria especial para membros que buscam qualidade e variedade!"
  +:+ nl +:+ nl +:+ "🚀 *VIP COMPLETO* - [CLIQUE AQUI](" +:+ link +:+ ") 🚀".

Definition format_post_message (cfg : Config) (post : Post) : string :=
  let debug_emoji := glyph cfg post in
  let model_name := extract_model_name (p_title post) in
  let link := default "https://t.me/seu_bot_aqui" (bot_link cfg) in
  if truthy debug_emoji
  then debug_emoji +:+ nl +:+ nl +:+ standard_message model_name link
  else standard_message model_name link.

End Message.

(** ** Orchestrator *)

Module Orchestrator.
Import PyStr Model Effects Resolver Delivery Message.
Local Open Scope effect_scope.

(** What the subreddits answer during one check: the new posts of the
    subreddit named at a position of the configured list, or the
    exception of the request. *)
Definition Feed : Type := nat -> string -> Outcome (list Post).

Definition media_extensions : list string :=
  [".jpg"; ".jpeg"; ".png"; ".gif"; ".webp"; ".mp4"; ".webm"; ".mov"].

Definition video_domains : list string :=
  ["youtube.com"; "youtu.be"; "v.redd.it"; "reddit.com/gallery"].

Definition has_media_content (post : Post) : bool :=
  if flag (p_is_video post) then true
  else if metadata_truthy (p_media_metadata post) then true
  else if media_truthy (p_media post) then true
  else if preview_truthy (p_preview post) then true
  else if negb (p_is_self post) && truthy (p_url post) then
    any_in media_extensions (lower (p_url post))
    || any_in video_domains (lower (p_url post))
  else false.

Section WithWorld.
Variable w : World.

(** Never raises: the removal sits in a [try] that catches everything. *)
Definition cleanup_temp_file (file_path : string) : M unit :=
  try_except
    (if truthy file_path then
       let* n := tick in
       if w_unlink_ok w n then ret tt else raise PermissionError
     else ret tt)
    (except_all (ret tt)).

Definition mark_processed (post : Post) : M unit :=
  modify (fun st => set_processed_posts ({[ p_id post ]} ∪ processed_posts st) st).

(** What the post is sent with when no video was downloaded. *)
Definition choose_media_url (post : Post) (is_nsfw : bool) : option string :=
  let media_url := if p_is_self post then None else Some (p_url post) in
  if is_nsfw || negb (p_is_self post) then
    match download_reddit_image post with
    | Some image_url => if truthy image_url then Some image_url else media_url
    | None => media_url
    end
  else media_url.

(** The body of the loop over the new posts of a subreddit. *)
Definition process_post (post : Post) : M unit :=
  let* st := get_state in
  if bool_decide (p_id post ∈ processed_posts st) then ret tt
  else
    let send_text_only := flag (send_text_only_posts (config st)) in
    let has_media := has_media_content post in
    if negb send_text_only && negb has_media then mark_processed post
    else
      let is_nsfw := flag (p_over_18 post) in
      let message := format_post_message (config st) post in
      let* video_file_path := download_reddit_video w post in
      let media_url :=
        if truthy_opt video_file_path then None
        else choose_media_url post is_nsfw in
      let post_url := "https://reddit.com" +:+ p_permalink post in
      let* success :=
        send_telegram_message w message media_url video_file_path
          (Some post_url) is_nsfw in
      (match video_file_path with
       | Some path => if truthy path then cleanup_temp_file path else ret tt
       | None => ret tt
       end) >>
      (if success then mark_processed post >> emit (EvSleep 2) else ret tt) >>
      let* st := get_state in
      if (size (processed_posts st) mod 5 =? 0)%nat
      then save_processed_posts w else ret tt.

Fixpoint process_posts (posts : list Post) : M unit :=
  match posts with
  | [] => ret tt
  | post :: rest => process_post post >> process_posts rest
  end.

(** One subreddit: an exception, from the feed or from a post, ends
    the subreddit and is logged. *)
Definition check_subreddit (feed : Outcome (list Post)) : M unit :=
  try_except (let* posts := lift feed in process_posts posts)
             (except_all (ret tt)).

(** The loop over the configured names; [position] is the index of the
    first of [names] in the list. *)
Fixpoint check_each (feed : Feed) (position : nat) (names : list string) : M unit :=
  match names with
  | [] => ret tt
  | subreddit_name :: rest =>
      check_subreddit (feed position subreddit_name) >>
      check_each feed (S position) rest
  end.

(** The list of names is read from the configuration before the loop,
    outside every handler. *)
Definition check_subreddits (feed : Feed) : M unit :=
  let* st := get_state in
  match subreddits (config st) with
  | Some names => check_each feed 0 names
  | None => raise KeyError
  end.

End WithWorld.

End Orchestrator.

(** ** Reference definitions used by the statements *)

Module Reference.
Import PyStr Model Effects Formatter.

(** Final state and value of a computation. *)
Definition exec {A} (m : M A) (st : State) : State := snd (m st).
Definition value {A} (m : M A) (st : State) : Outcome A := fst (m st).

(** The subject-name rule in the words of the specification: strip
    punctuation and digits from the segment, and accept it when one of
    the remaining tokens starts with an upper-case letter and is longer
    than one character.  Tokens are the words of the segment. *)
Definition ispunct (c : ascii) : bool :=
  in_range 33 47 c || in_range 58 64 c || in_range 91 96 c || in_range 123 126 c.

Definition strip_punctuation_digits (segment : string) : string :=
  remove_chars (fun c => ispunct c || isdigit c) segment.

Definition accepts_segment (segment : string) : bool :=
  existsb looks_like_name (split (strip_punctuation_digits segment)).

Definition subject_name (title : string) : option string :=
  match search_name_pattern title with
  | Some group1 =>
      if accepts_segment (strip group1) then Some (strip group1) else None
  | None => None
  end.

Definition delivered (a : HttpAnswer) : bool :=
  match a with Delivered => true | _ => false end.

(** What a drain leaves of a queue, record by record; the record at
    position [k] is retried at tick [c + k]. *)
Fixpoint survivors (w : World) (c : nat) (q : list FailureRecord)
    : list FailureRecord :=
  match q with
  | [] => []
  | r :: q' =>
      if delivered (w_post w c) then survivors w (S c) q'
      else if (3 <=? S (fr_retry_count r))%nat then survivors w (S c) q'
      else Delivery.bump r :: survivors w (S c) q'
  end.

(** The records after the loop of a drain, before the removal: a record
    whose retry failed has its counter incremented. *)
Fixpoint retried (w : World) (c : nat) (q : list FailureRecord)
    : list FailureRecord :=
  match q with
  | [] => []
  | r :: q' =>
      (if delivered (w_post w c) then r else Delivery.bump r)
      :: retried w (S c) q'
  end.

(** The positions marked for removal, counted from [i]. *)
Fixpoint marks (w : World) (c i : nat) (q : list FailureRecord) : list nat :=
  match q with
  | [] => []
  | r :: q' =>
      (if delivered (w_post w c) then [i]
       else if (3 <=? S (fr_retry_count r))%nat then [i] else [])
      ++ marks w (S c) (S i) q'
  end.

(** The requests of a drain, oldest first. *)
Fixpoint attempts (w : World) (token chat : string) (c : nat)
    (q : list FailureRecord) : list Event :=
  match q with
  | [] => []
  | r :: q' =>
      EvPost (SendMessage token chat (Delivery.retry_text r)) (w_post w c)
      :: attempts w token chat (S c) q'
  end.

(** Without credentials no request leaves the bot: every retry fails
    before the endpoint is asked.  [deaf w] is [w] with an endpoint that
    answers no request with success, and [heard w cfg] is the endpoint as
    a bot with the configuration [cfg] meets it. *)
Definition deaf (w : World) : World :=
  {| w_post := fun _ => RequestFailed; w_get := w_get w; w_mktemp := w_mktemp w;
     w_run := w_run w; w_glob := w_glob w; w_unlink_ok := w_unlink_ok w;
     w_exists := w_exists w; w_open_ok := w_open_ok w; w_write := w_write w;
     w_now := w_now w |}.

Definition heard (w : World) (cfg : Config) : World :=
  match Delivery.credentials cfg with
  | Ret _ => w
  | Raise _ => deaf w
  end.

(** The requests of a drain, oldest first, and their number. *)
Definition retries (w : World) (cfg : Config) (c : nat) (q : list FailureRecord)
    : list Event :=
  match Delivery.credentials cfg with
  | Ret (token, chat) => attempts w token chat c q
  | Raise _ => []
  end.

(** The state after one text request. *)
Definition after_text (w : World) (token chat message : string) (st : State)
    : State :=
  set_events
    (EvPost (SendMessage token chat message) (w_post w (clock st)) :: events st)
    (set_clock (S (clock st)) st).

(** What an entry of [media_metadata] offers to image resolution, read
    off its fields as the specification words it.  [product] is the
    width times the height of a preview, a missing side counting as 0;
    [first_largest] is the first preview of largest product. *)
Definition product (v : PreviewVariant) : Z :=
  (default 0 (pv_x v) * default 0 (pv_y v))%Z.

Definition first_largest (previews : list PreviewVariant) (v : PreviewVariant)
    : Prop :=
  exists before after,
    previews = before ++ v :: after
    /\ Forall (fun x => (product x < product v)%Z) before
    /\ Forall (fun x => (product x <= product v)%Z) after.

(** The entry is tagged Image and [u] is its best-quality address, else
    the address of its first original, else the address of its first
    largest preview. *)
Definition offers (info : MediaInfo) (u : string) : Prop :=
  mi_e info = Some "Image"
  /\ match mi_s info with
     | Some {| sv_u := Some best |} => u = best
     | _ =>
         match mi_o info with
         | Some ({| sv_u := Some orig |} :: _) => u = orig
         | _ =>
             exists previews v,
               mi_p info = Some previews
               /\ first_largest previews v
               /\ pv_u v = Some u
         end
     end.

(** What a request of a send carries, given the media address and the
    video path that the send received: a video request carries the path,
    a photo request the address; the trace of a send has requests only. *)
Definition carried (media_url video_file_path : option string) (e : Event) : Prop :=
  match e with
  | EvPost (SendVideo _ _ path _) _ => video_file_path = Some path
  | EvPost (SendPhoto _ _ address _) _ => media_url = Some address
  | EvPost (SendMessage _ _ _) _ => True
  | _ => False
  end.





(** [n] drains in a row. *)
Fixpoint drains (w : World) (n : nat) (st : State) : State :=
  match n with
  | O => st
  | S n' => drains w n' (exec (Delivery.retry_failed_messages w) st)
  end.

End Reference.

(** ** Concrete inputs *)

Module Examples.
Import Model.

Definition tagged (kind : string) : MediaInfo :=
  {| mi_e := Some kind; mi_s := None; mi_o := None; mi_p := None;
     mi_hlsUrl := None; mi_dashUrl := None |}.

Definition dash_only : MediaInfo :=
  {| mi_e := Some "RedditVideo"; mi_s := None; mi_o := None; mi_p := None;
     mi_hlsUrl := None;
     mi_dashUrl := Some "https://v.redd.it/a1/DASHPlaylist.mpd" |}.

Definition hls_and_dash : MediaInfo :=
  {| mi_e := Some "RedditVideo"; mi_s := None; mi_o := None; mi_p := None;
     mi_hlsUrl := Some "https://v.redd.it/b2/HLSPlaylist.m3u8";
     mi_dashUrl := Some "https://v.redd.it/b2/DASHPlaylist.mpd" |}.

Definition image_with_best : MediaInfo :=
  {| mi_e := Some "Image";
     mi_s := Some {| sv_u := Some "https://preview.redd.it/b2.jpg?s=1&amp;w=2" |};
     mi_o := None; mi_p := None; mi_hlsUrl := None; mi_dashUrl := None |}.

Definition link_post (address : string)
    (metadata : option (gmap string MediaInfo)) : Post :=
  {| p_id := "t3_abc"; p_title := "Ana Maria | Special post";
     p_permalink := "/r/pics/comments/abc/"; p_url := address;
     p_is_self := false; p_is_video := None; p_over_18 := None;
     p_media := None; p_media_metadata := metadata; p_preview := None |}.

Definition text_post : Post :=
  {| p_id := "t3_txt"; p_title := "just words";
     p_permalink := "/r/pics/comments/txt/";
     p_url := "https://reddit.com/r/pics/comments/txt/";
     p_is_self := true; p_is_video := None; p_over_18 := None;
     p_media := None; p_media_metadata := None; p_preview := None |}.

(** Two video entries; the first one has a DASH address only. *)
Definition two_videos : gmap string MediaInfo :=
  {[ "a1" := dash_only; "b2" := hls_and_dash ]}.

(** Two image entries; the first one has no address at all. *)
Definition two_images : gmap string MediaInfo :=
  {[ "a1" := tagged "Image"; "b2" := image_with_best ]}.

Definition sample_config : Config :=
  {| telegram := Some {| bot_token := Some "123:abc"; chat_id := Some "-100" |};
     debug_emoji := None; send_text_only_posts := None; bot_link := None;
     subreddits := Some ["pics"] |}.

Definition record0 : FailureRecord :=
  {| fr_message := "hello"; fr_media_url := Some "https://i.redd.it/x.jpg";
     fr_post_url := None; fr_timestamp := "2024-01-01T00:00:00";
     fr_retry_count := 0 |}.

(** A bot with one pending record, saved when it was enqueued. *)
Definition one_pending : State :=
  {| config := sample_config; processed_posts := ∅;
     failed_messages := [record0]; failed_file := Stored [record0];
     processed_file := Missing; events := []; clock := 0 |}.

Definition idle : State :=
  {| config := sample_config; processed_posts := ∅;
     failed_messages := []; failed_file := Missing;
     processed_file := Missing; events := []; clock := 0 |}.


(** The endpoint answers [a] to every request; the file system works. *)
Definition world (a : HttpAnswer) : World :=
  {| w_post := fun _ => a;
     w_get := fun _ => FetchFailed;
     w_mktemp := fun _ => Some "/tmp/tmpq1.mp4";
     w_run := fun _ => Exited 0;
     w_glob := fun _ => [("/tmp/tmpq1.mp4", 0); ("/tmp/tmpq1.webm", 4096)];
     w_unlink_ok := fun _ => true;
     w_exists := fun _ _ => true;
     w_open_ok := fun _ => true;
     w_write := fun _ => Written;
     w_now := fun _ => "2024-01-01T00:00:00" |}.

(** The endpoint gives the listed answers in turn, then succeeds. *)
Definition scripted (answers : list (nat * HttpAnswer)) : World :=
  {| w_post := fun n => default Delivered (snd <$> List.find (fun a => (fst a =? n)%nat) answers);
     w_get := w_get (world Delivered);
     w_mktemp := w_mktemp (world Delivered);
     w_run := w_run (world Delivered);
     w_glob := w_glob (world Delivered);
     w_unlink_ok := w_unlink_ok (world Delivered);
     w_exists := w_exists (world Delivered);
     w_open_ok := w_open_ok (world Delivered);
     w_write := w_write (world Delivered);
     w_now := w_now (world Delivered) |}.

End Examples.

(** ** Relations between the state before and after a computation *)

Module Frames.
Import Model Effects.

(** The computation returns a value on every state. *)
Definition never_raises {A} (m : M A) : Prop :=
  forall st, exists a, fst (m st) = Ret a.

(** The state after the computation is related to the state before. *)
Definition keeps (R : State -> State -> Prop) {A} (m : M A) : Prop :=
  forall st, R st (snd (m st)).

(** The computation consults the environment and nothing else: the bot
    and its two files are as before, the trace and the clock only
    advance. *)
Definition only_interacts (st st' : State) : Prop :=
  config st' = config st
  /\ processed_posts st' = processed_posts st
  /\ failed_messages st' = failed_messages st
  /\ failed_file st' = failed_file st
  /\ processed_file st' = processed_file st
  /\ events st `suffix_of` events st'
  /\ clock st <= clock st'.

(** The configuration is as before, the set of processed posts and the
    failure queue only gain elements, the trace and the clock advance. *)
Definition grows (st st' : State) : Prop :=
  config st' = config st
  /\ processed_posts st ⊆ processed_posts st'
  /\ failed_messages st `prefix_of` failed_messages st'
  /\ events st `suffix_of` events st'
  /\ clock st <= clock st'.

(** Of the bot, the computation changes the failure queue and its file
    at most. *)
Definition queue_only (st st' : State) : Prop :=
  config st' = config st
  /\ processed_posts st' = processed_posts st
  /\ processed_file st' = processed_file st
  /\ events st `suffix_of` events st'
  /\ clock st <= clock st'.

End Frames.

(** ** Start-up, main loop and exit of the bot *)

Module Lifecycle.
Import PyStr Model Effects Delivery Orchestrator.
Local Open Scope effect_scope.

(** [create_sample_config]: the dictionary that it builds names [true]
    and [false], which Python does not define, so the function raises
    [NameError] before it opens the file. *)
Definition create_sample_config : Outcome unit := Raise NameError.

(** [load_config]: a missing file is answered by [create_sample_config]
    and the exception is raised again, unless that call raises; a file
    that does not parse, or cannot be opened, raises. *)
Definition load_config (config_file : StateFile Config) : Outcome Config :=
  match read_json config_file with
  | Ret cfg => Ret cfg
  | Raise e =>
      if is_file_not_found e then
        match create_sample_config with
        | Ret _ => Raise e
        | Raise e' => Raise e'
        end
      else Raise e
  end.

(** [setup_reddit]: the connection is made and tested, or the exception
    is logged and raised again; [reddit_ok] tells whether the connection
    and its test succeed. *)
Definition setup_reddit (reddit_ok : bool) : Outcome unit :=
  if reddit_ok then Ret tt else Raise OtherError.

(** [RedditToTelegramBot.__init__] on the files of [disk]: the new bot,
    with the trace and the clock of [disk]. *)
Definition construct (config_file : StateFile Config) (reddit_ok : bool)
    (disk : State) : Outcome State :=
  match load_config config_file with
  | Raise e => Raise e
  | Ret cfg =>
      match setup_reddit reddit_ok with
      | Raise e => Raise e
      | Ret _ =>
          match load_processed_posts (processed_file disk) with
          | Raise e => Raise e
          | Ret ids =>
              match load_failed_messages (failed_file disk) with
              | Raise e => Raise e
              | Ret records =>
                  Ret {| config := cfg; processed_posts := ids;
                         failed_messages := records;
                         failed_file := failed_file disk;
                         processed_file := processed_file disk;
                         events := events disk; clock := clock disk |}
              end
          end
      end
  end.

Section WithWorld.
Variable w : World.

(** [time.sleep(seconds)] for an integer: a negative argument raises
    [ValueError], and one whose count of nanoseconds does not fit in 64
    bits raises [OverflowError]. *)
Definition sleep (seconds : Z) : M unit :=
  if (seconds <? -9223372036)%Z then raise OverflowError
  else if (seconds <? 0)%Z then raise ValueError
  else if (9223372036 <? seconds)%Z then raise OverflowError
  else emit (EvSleep (Z.to_nat seconds)).

(** [self.config['check_interval']]; [check_interval] is the entry of
    the configuration, when it has one. *)
Definition interval_of (check_interval : option Z) : M Z :=
  match check_interval with
  | Some seconds => ret seconds
  | None => raise KeyError
  end.

(** The body of [while True] in [run]; [feed] is what the subreddits
    return in this cycle. *)
Definition run_cycle (feed : Feed) (check_interval : option Z) : M unit :=
  check_subreddits w feed >>
  save_processed_posts w >>
  retry_failed_messages w >>
  let* seconds := interval_of check_interval in
  sleep seconds.

Fixpoint run_cycles (cycles : list Feed) (check_interval : option Z) : M unit :=
  match cycles with
  | [] => ret tt
  | feed :: rest => run_cycle feed check_interval >> run_cycles rest check_interval
  end.

(** The two lines that [run] logs before its [try]: they index the
    configuration at [subreddits] and at [check_interval]. *)
Definition announce (check_interval : option Z) : M unit :=
  let* st := get_state in
  match subreddits (config st) with
  | Some _ => let* _ := interval_of check_interval in ret tt
  | None => raise KeyError
  end.

(** [run], for a user who interrupts the program when the last of
    [cycles] is over.  The interrupt is answered by a save; an exception
    of a cycle is answered by a save and raised again, unless the save
    raises. *)
Definition run (cycles : list Feed) (check_interval : option Z) : M unit :=
  announce check_interval >>
  fun st =>
    match run_cycles cycles check_interval st with
    | (Ret _, st') => save_processed_posts w st'
    | (Raise e, st') =>
        match save_processed_posts w st' with
        | (Ret _, st'') => (Raise e, st'')
        | (Raise e', st'') => (Raise e', st'')
        end
    end.

(** [main]: the exit status, and the state left behind ([disk] when the
    bot could not be constructed). *)
Definition main (config_file : StateFile Config) (reddit_ok : bool)
    (cycles : list Feed) (check_interval : option Z) (disk : State)
    : nat * State :=
  match construct config_file reddit_ok disk with
  | Raise _ => (1, disk)
  | Ret bot =>
      match run cycles check_interval bot with
      | (Ret _, st') => (0, st')
      | (Raise _, st') => (1, st')
      end
  end.

End WithWorld.

End Lifecycle.

(** ** The service of run_service.py *)

Module Service.
Import PyStr Model Effects Delivery Orchestrator.
Local Open Scope effect_scope.

Section WithWorld.
Variable w : World.

(** [for _ in range(interval): if not self.running: break; time.sleep(1)].
    The signal handler clears [running]; [signal_after] is the number of
    sleeps after which the signal arrives, when it arrives. *)
Fixpoint wait (interval : nat) (signal_after : option nat) : M unit :=
  match interval with
  | O => ret tt
  | S interval' =>
      match signal_after with
      | Some O => ret tt
      | _ => emit (EvSleep 1) >> wait interval' (pred <$> signal_after)
      end
  end.

(** [run_bot_cycle] of a service whose bot is initialised; [check_interval]
    is the entry of the configuration, when it has one.  The handlers of
    the service replace the interrupt, and no operation of the cycle
    raises an encoding error, so the last handler answers every
    exception. *)
Definition run_bot_cycle (feed : Feed)
    (check_interval : option Z) (signal_after : option nat) : M bool :=
  try_except
    (check_subreddits w feed >>
     save_processed_posts w >>
     let interval := default 300%Z check_interval in
     wait (Z.to_nat interval) signal_after >>
     ret true)
    (except_all (ret false)).

(** The end of [run], for a service that has a bot: both saves under
    one handler. *)
Definition final_save : M unit :=
  try_except (save_processed_posts w >> save_failed_messages w)
             (except_all (ret tt)).

End WithWorld.

End Service.

(** ** The interactive setup of setup_and_test.py *)

Module Setup.
Import PyStr Model.

(** [s.split(sep)] for a one-character separator: the pieces between
    the separators, empty ones included. *)
Fixpoint split_on (sep : ascii) (s : string) : list string :=
  match s with
  | EmptyString => [EmptyString]
  | String c s' =>
      if Ascii.eqb c sep then EmptyString :: split_on sep s'
      else
        match split_on sep s' with
        | piece :: pieces => String c piece :: pieces
        | [] => [String c EmptyString]
        end
  end.

(** [[s.strip() for s in subreddits_input.split(',') if s.strip()]] *)
Definition subreddits_of (subreddits_input : string) : list string :=
  strip <$> List.filter (fun s => truthy (strip s)) (split_on "," subreddits_input).

(** The third spelling of the refusal has the letter a with a tilde,
    character 227. *)
Definition refusals : list string :=
  ["n"; "no"; String "n" (String (ascii_of_N 227) (String "o" EmptyString)); "nao"].

(** What the user types at the prompts that the bot reads. *)
Record Answers := {
  telegram_bot_token : string;
  telegram_chat_id : string;
  bot_link_input : string;
  subreddits_input : string;
  debug_emoji_input : string }.

(** [create_config]: the entries, among those that the bot reads from
    its configuration, of the dictionary written to the file. *)
Definition create_config (typed : Answers) : Config :=
  let bot_link := strip (bot_link_input typed) in
  let subreddits_input := strip (subreddits_input typed) in
  let debug_emoji_input := lower (strip (debug_emoji_input typed)) in
  {| telegram := Some {| bot_token := Some (strip (telegram_bot_token typed));
                         chat_id := Some (strip (telegram_chat_id typed)) |};
     debug_emoji := Some (negb (existsb (String.eqb debug_emoji_input) refusals));
     send_text_only_posts := None;
     bot_link := Some (if truthy bot_link then bot_link
                       else "https://t.me/seu_bot_aqui");
     subreddits := Some (subreddits_of subreddits_input) |}.

End Setup.

(** ** What a check can add, and further examples *)

Module Observations.
Import Model Orchestrator.

(** What the subreddits at the positions from [position] on answer. *)
Fixpoint answers (feed : Feed) (position : nat) (names : list string)
    : list (Outcome (list Post)) :=
  match names with
  | [] => []
  | subreddit_name :: rest =>
      feed position subreddit_name :: answers feed (S position) rest
  end.

(** The identifiers of the posts that a feed returns. *)
Definition feed_ids (feed : Outcome (list Post)) : gset string :=
  match feed with
  | Ret posts => list_to_set (p_id <$> posts)
  | Raise _ => ∅
  end.

Definition feeds_ids (feeds : list (Outcome (list Post))) : gset string :=
  ⋃ (feed_ids <$> feeds).

(** Every post of the feed is in the set [seen]. *)
Definition all_seen (seen : gset string) (feed : Outcome (list Post)) : bool :=
  match feed with
  | Ret posts => forallb (fun post => bool_decide (p_id post ∈ seen)) posts
  | Raise _ => true
  end.

End Observations.

Module Cases.
Import Model Examples.

(** A video post whose descriptor has no [fallback_url]. *)
Definition broken_video_post : Post :=
  {| p_id := "t3_vid"; p_title := "clip";
     p_permalink := "/r/pics/comments/vid/"; p_url := "https://v.redd.it/abc";
     p_is_self := false; p_is_video := Some true; p_over_18 := None;
     p_media := Some {| reddit_video := Some {| fallback_url := None |};
                        oembed := None; media_other_keys := false |};
     p_media_metadata := Some two_videos; p_preview := None |}.

(** A video post without descriptor. *)
Definition bare_video_post : Post :=
  {| p_id := "t3_vid"; p_title := "clip";
     p_permalink := "/r/pics/comments/vid/"; p_url := "https://v.redd.it/abc";
     p_is_self := false; p_is_video := Some true; p_over_18 := None;
     p_media := None; p_media_metadata := Some two_videos; p_preview := None |}.

(** A link whose preview has a video file. *)
Definition preview_video_post : Post :=
  {| p_id := "t3_gif"; p_title := "clip";
     p_permalink := "/r/pics/comments/gif/"; p_url := "https://i.imgur.com/abc.gifv";
     p_is_self := false; p_is_video := None; p_over_18 := None;
     p_media := None; p_media_metadata := None;
     p_preview :=
       Some {| images := None;
               reddit_video_preview :=
                 Some {| fallback_url :=
                           Some "https://v.redd.it/abc/DASH_480.mp4?source=fallback" |};
               preview_other_keys := false |} |}.

(** An image entry with three previews, two of them of the largest area. *)
Definition previews_only : MediaInfo :=
  {| mi_e := Some "Image"; mi_s := None; mi_o := None;
     mi_p := Some [ {| pv_x := Some 108%Z; pv_y := Some 60%Z;
                       pv_u := Some "https://preview.redd.it/a.jpg?width=108" |};
                    {| pv_x := Some 640%Z; pv_y := Some 360%Z;
                       pv_u := Some "https://preview.redd.it/a.jpg?width=640" |};
                    {| pv_x := Some 360%Z; pv_y := Some 640%Z;
                       pv_u := Some "https://preview.redd.it/a.jpg?width=360" |} ];
     mi_hlsUrl := None; mi_dashUrl := None |}.

(** A bot that also sends the posts without media. *)
Definition chatty : State :=
  {| config := {| telegram := Some {| bot_token := Some "123:abc";
                                      chat_id := Some "-100" |};
                  debug_emoji := None; send_text_only_posts := Some true;
                  bot_link := None; subreddits := Some ["pics"] |};
     processed_posts := ∅; failed_messages := []; failed_file := Missing;
     processed_file := Missing; events := []; clock := 0 |}.

(** The file system refuses every write. *)
Definition read_only (a : HttpAnswer) : World :=
  {| w_post := w_post (world a); w_get := w_get (world a);
     w_mktemp := w_mktemp (world a); w_run := w_run (world a);
     w_glob := w_glob (world a); w_unlink_ok := w_unlink_ok (world a);
     w_exists := w_exists (world a); w_open_ok := w_open_ok (world a);
     w_write := fun _ => WriteRefused; w_now := w_now (world a) |}.



(** Every subreddit gives the same answer. *)
Definition every (answer : Outcome (list Post)) : Orchestrator.Feed :=
  fun _ _ => answer.

Definition typed : Setup.Answers :=
  {| Setup.telegram_bot_token := " 123:abc "; Setup.telegram_chat_id := "-100";
     Setup.bot_link_input := "  "; Setup.subreddits_input := " python, ,pics ,,";
     Setup.debug_emoji_input := " No " |}.

End Cases.

(** * Properties *)

Import PyStr Model Effects Formatter Resolver Delivery Message Orchestrator.
Import Reference Examples.

Ltac unfold_effects :=
  unfold value, exec, bind, ret, raise, lift, try_except, except_all, except_only,
    get_state, modify, tick, emit.

Ltac state_simpl :=
  cbn [fst snd config processed_posts failed_messages failed_file processed_file
       events clock set_clock set_events set_failed_messages set_failed_file
       set_processed_posts set_processed_file written write_raises].

(** ** The order on media identifiers *)

Section StringOrder.

Lemma str_le_cases (a b : string) :
  str_le a b <-> a = b \/ String_as_OT.lt a b.
Proof.
  unfold str_le, String.leb.
  destruct (String.compare a b) eqn:E.
  - apply String_as_OT.cmp_eq in E. tauto.
  - apply String_as_OT.cmp_lt in E. tauto.
  - split; [discriminate|]. intros [->|H].
    + assert (String_as_OT.cmp b b = Eq) as Hb by (by apply String_as_OT.cmp_eq).
      unfold String_as_OT.cmp in Hb. congruence.
    + apply String_as_OT.cmp_lt in H. unfold String_as_OT.cmp in H. congruence.
Qed.

#[global] Instance str_le_trans : Transitive str_le.
Proof.
  intros a b c Hab Hbc. apply str_le_cases in Hab, Hbc. apply str_le_cases.
  destruct Hab as [->|Hab]; [done|]. destruct Hbc as [<-|Hbc]; [by right|].
  right. by eapply String_as_OT.lt_trans.
Qed.

#[global] Instance str_le_total : Total str_le.
Proof. intros a b. apply String.leb_total. Qed.

End StringOrder.

(** ** The scan over the sorted identifiers *)

Section Scan.
Context (pick : MediaInfo -> option string) (m : gmap string MediaInfo).

Lemma sorted_media_ids_sorted : StronglySorted str_le (sorted_media_ids m).
Proof. apply StronglySorted_merge_sort; apply _. Qed.

Lemma elem_of_sorted_media_ids (k : string) :
  k ∈ sorted_media_ids m <-> is_Some (m !! k).
Proof.
  unfold sorted_media_ids. rewrite merge_sort_Permutation.
  change (map fst (map_to_list m)) with ((map_to_list m).*1).
  rewrite list_elem_of_fmap. split.
  - intros [[k' x] [-> H]]. apply elem_of_map_to_list in H. by exists x.
  - intros [x H]. exists (k, x). split; [done|]. by apply elem_of_map_to_list.
Qed.

Lemma first_pick_sound (ids : list string) (k u : string) :
  first_pick pick m ids = Some (k, u) ->
  k ∈ ids /\ exists info, m !! k = Some info /\ pick info = Some u.
Proof.
  induction ids as [|i ids IH]; simpl; [done|].
  destruct (m !! i) as [info|] eqn:Hi.
  - destruct (pick info) as [u'|] eqn:Hp.
    + intros [= <- <-]. split; [left|]. eauto.
    + intros H. destruct (IH H) as [? ?]. split; [by right|done].
  - intros H. destruct (IH H) as [? ?]. split; [by right|done].
Qed.

Lemma first_pick_least (ids : list string) (k u : string) :
  StronglySorted str_le ids ->
  first_pick pick m ids = Some (k, u) ->
  forall k' info', k' ∈ ids -> m !! k' = Some info' -> is_Some (pick info') ->
    str_le k k'.
Proof.
  induction 1 as [|i ids Hs IH Hall]; simpl; [done|].
  intros Hpick k' info' Hin Hk' Hp'.
  assert (str_le i i) as Hrefl.
  { destruct (total str_le i i); done. }
  destruct (m !! i) as [info|] eqn:Hi.
  - destruct (pick info) as [u'|] eqn:Hp.
    + injection Hpick as <- <-.
      apply elem_of_cons in Hin as [->|Hin]; [done|].
      rewrite Forall_forall in Hall. by apply Hall.
    + apply elem_of_cons in Hin as [->|Hin].
      * rewrite Hi in Hk'. injection Hk' as <-. rewrite Hp in Hp'. by destruct Hp'.
      * by eapply IH.
  - apply elem_of_cons in Hin as [->|Hin]; [congruence|]. by eapply IH.
Qed.

Lemma first_pick_complete (ids : list string) (k : string) (info : MediaInfo) :
  k ∈ ids -> m !! k = Some info -> is_Some (pick info) ->
  is_Some (first_pick pick m ids).
Proof.
  induction ids as [|i ids IH]; simpl; [by intros ?%elem_of_nil|].
  intros Hin Hk Hp. destruct (m !! i) as [info'|] eqn:Hi.
  - destruct (pick info') as [u'|] eqn:Hp'; [by eexists|].
    apply elem_of_cons in Hin as [->|Hin]; [|by apply IH].
    rewrite Hi in Hk. injection Hk as <-. rewrite Hp' in Hp. by destruct Hp.
  - apply elem_of_cons in Hin as [->|Hin]; [congruence|]. by apply IH.
Qed.

(** The scan stops at the least identifier whose entry the loop body
    accepts. *)
Lemma scan_sorted_spec (k0 : string) (info0 : MediaInfo) :
  m !! k0 = Some info0 -> is_Some (pick info0) ->
  exists k info u,
    first_pick pick m (sorted_media_ids m) = Some (k, u)
    /\ m !! k = Some info /\ pick info = Some u
    /\ forall k' info', m !! k' = Some info' -> is_Some (pick info') -> str_le k k'.
Proof.
  intros Hk0 Hp0.
  destruct (first_pick_complete (sorted_media_ids m) k0 info0)
    as [[k u] Hfp]; [|done|done|].
  { apply elem_of_sorted_media_ids. by eexists. }
  destruct (first_pick_sound _ _ _ Hfp) as [_ (info & Hk & Hp)].
  exists k, info, u. repeat split; [done..|].
  intros k' info' Hk' Hp'.
  eapply first_pick_least; [apply sorted_media_ids_sorted|done| |done|done].
  apply elem_of_sorted_media_ids. by eexists.
Qed.

End Scan.

Lemma max_by_first_maximum {A} (key : A -> Z) (l : list A) (best : A) :
  exists l1 l2,
    best :: l = l1 ++ max_by key best l :: l2
    /\ Forall (fun x => (key x < key (max_by key best l))%Z) l1
    /\ Forall (fun x => (key x <= key (max_by key best l))%Z) l2.
Proof.
  revert best. induction l as [|y l IH]; intros best; cbn [max_by].
  - exists [], []. split_and!; [done|constructor|constructor].
  - destruct (Z.ltb_spec (key best) (key y)) as [Hlt|Hge].
    + destruct (IH y) as (l1 & l2 & Heq & H1 & H2).
      exists (best :: l1), l2. split_and!; [by rewrite Heq| |done].
      constructor; [|done].
      destruct l1 as [|z l1]; injection Heq as Hy Hl.
      * rewrite <- Hy. lia.
      * subst z. apply Forall_cons in H1 as [H1 _]. lia.
    + destruct (IH best) as (l1 & l2 & Heq & H1 & H2).
      destruct l1 as [|z l1]; injection Heq as Hb Hl.
      * exists [], (y :: l2). split_and!; [by rewrite <- Hb, Hl|constructor|].
        constructor; [rewrite <- Hb; lia|done].
      * subst z. exists (best :: y :: l1), l2.
        pose proof H1 as [Hbest _]%Forall_cons.
        split_and!; [cbn [app]; congruence| |done].
        constructor; [done|]. constructor; [lia|]. by apply Forall_cons in H1 as [_ ?].
Qed.

Lemma max_by_stays {A} (key : A -> Z) (l : list A) (best : A) :
  Forall (fun x => (key x <= key best)%Z) l -> max_by key best l = best.
Proof.
  induction l as [|y l IH]; [done|]. intros [Hy Hl]%Forall_cons. cbn [max_by].
  destruct (Z.ltb_spec (key best) (key y)); [lia|by apply IH].
Qed.

Lemma max_by_skips {A} (key : A -> Z) (before after : list A) (v : A) :
  Forall (fun x => (key x < key v)%Z) before ->
  Forall (fun x => (key x <= key v)%Z) after ->
  forall best, (key best < key v)%Z ->
    max_by key best (before ++ v :: after) = v.
Proof.
  intros Hbefore Hafter.
  induction before as [|y before IH]; intros best Hbest; cbn [app max_by].
  - apply Z.ltb_lt in Hbest. rewrite Hbest. by apply max_by_stays.
  - apply Forall_cons in Hbefore as [Hy Hbefore].
    destruct (key best <? key y)%Z; by apply IH.
Qed.

(** The maximum that [max] returns is the first of the largest elements,
    and only that one. *)
Lemma max_by_first_largest {A} (key : A -> Z) (p0 : A) (ps before after : list A)
    (v : A) :
  p0 :: ps = before ++ v :: after ->
  Forall (fun x => (key x < key v)%Z) before ->
  Forall (fun x => (key x <= key v)%Z) after ->
  max_by key p0 ps = v.
Proof.
  intros Heq Hbefore Hafter. destruct before as [|y before]; injection Heq as -> ->.
  - by apply max_by_stays.
  - apply Forall_cons in Hbefore as [Hy Hbefore]. by apply max_by_skips.
Qed.

(** The loop body for one entry obtains exactly what the entry offers. *)
Lemma pick_image_offers (info : MediaInfo) (u : string) :
  pick_image info = Some u <-> offers info u.
Proof.
  unfold pick_image, offers, original_url, largest_preview_url.
  case_bool_decide as He; [|split; [done|by intros [? _]]].
  destruct (mi_s info) as [[[best|]]|]; cbn.
  1: { split; [intros [= ->]; done|intros [_ ->]; done]. }
  all: destruct (mi_o info) as [[|[[orig|]] os]|]; cbn.
  all: try (split; [intros [= ->]; done|intros [_ ->]; done]).
  all: split.
  all: try (intros Hp; split; [done|];
            destruct (mi_p info) as [[|p0 ps]|]; try done;
            destruct (max_by_first_maximum area ps p0) as (l1 & l2 & Heq & H1 & H2);
            exists (p0 :: ps), (max_by area p0 ps); split_and!; [done| |done];
            by exists l1, l2).
  all: intros (_ & previews & v & -> & (l1 & l2 & -> & H1 & H2) & Hu);
    destruct l1 as [|y l1]; cbn [app];
    [rewrite (max_by_first_largest area v l2 [] l2 v)
    |rewrite (max_by_first_largest area y (l1 ++ v :: l2) (y :: l1) l2 v)]; done.
Qed.

Lemma pick_video_tagged (info : MediaInfo) (u : string) :
  pick_video info = Some u ->
  mi_e info = Some "RedditVideo"
  /\ (forall h, mi_hlsUrl info = Some h -> u = h)
  /\ (mi_hlsUrl info = None -> mi_dashUrl info = Some u).
Proof.
  unfold pick_video. case_bool_decide as He; [|done].
  destruct (mi_hlsUrl info) as [h|]; intros H; split_and!; try done; congruence.
Qed.

Lemma metadata_truthy_lookup (m : gmap string MediaInfo) (k : string)
    (info : MediaInfo) :
  m !! k = Some info -> metadata_truthy (Some m) = true.
Proof.
  intros H. simpl. case_bool_decide as He; [|done]. subst.
  by rewrite lookup_empty in H.
Qed.

(** ** Video resolution from [media_metadata] *)

(** C3, as the code has it.  When [media_metadata] holds an entry tagged
    RedditVideo that carries an HLS or a DASH address, the scan over the
    identifiers in ascending order stops at the least identifier among
    the RedditVideo entries that carry one of the two addresses (entries
    tagged RedditVideo without any address are passed over).  From that
    entry it takes the HLS address when there is one, and the DASH address
    only when there is no HLS address.  When no earlier method found an
    address and the address taken is not empty, it is the address that
    video resolution selects. *)
Theorem video_scan_first_entry_with_stream (post : Post)
    (m : gmap string MediaInfo) (id : string) (mi : MediaInfo) :
  p_media_metadata post = Some m ->
  m !! id = Some mi ->
  mi_e mi = Some "RedditVideo" ->
  is_Some (mi_hlsUrl mi) \/ is_Some (mi_dashUrl mi) ->
  exists k info u,
    video_entry post = Some (k, u)
    /\ m !! k = Some info
    /\ mi_e info = Some "RedditVideo"
    /\ (forall k' info', m !! k' = Some info' -> mi_e info' = Some "RedditVideo" ->
          is_Some (mi_hlsUrl info') \/ is_Some (mi_dashUrl info') -> str_le k k')
    /\ (forall h, mi_hlsUrl info = Some h -> u = h)
    /\ (mi_hlsUrl info = None -> mi_dashUrl info = Some u)
    /\ (forall v, video_direct post = Ret v -> truthy_opt v = false ->
          truthy u = true -> select_video_url post = Ret (Some u)).
Proof.
  intros Hm Hid He Hurl.
  assert (forall info', mi_e info' = Some "RedditVideo" ->
            is_Some (mi_hlsUrl info') \/ is_Some (mi_dashUrl info') ->
            is_Some (pick_video info')) as Husable.
  { intros info' He' [[h Hh]|[d Hd]]; unfold pick_video;
      rewrite bool_decide_eq_true_2 by done.
    - rewrite Hh. by eexists.
    - rewrite Hd. destruct (mi_hlsUrl info'); by eexists. }
  destruct (scan_sorted_spec pick_video m id mi Hid (Husable _ He Hurl))
    as (k & info & u & Hscan & Hk & Hp & Hleast).
  destruct (pick_video_tagged _ _ Hp) as (Htag & Hhls & Hdash).
  exists k, info, u. split_and!; try done.
  - unfold video_entry. by rewrite Hm.
  - intros k' info' Hk' He' Hu'. eapply Hleast; [done|]. by apply Husable.
  - intros v Hv Hfalsy Hu. unfold select_video_url. rewrite Hv. simpl.
    unfold video_from_metadata, video_entry. rewrite Hfalsy, Hm.
    rewrite (metadata_truthy_lookup m id mi Hid). simpl. rewrite Hscan.
    unfold video_from_preview. simpl. by rewrite Hu.
Qed.

(** The theorem at a post with two video entries. *)
Lemma video_scan_first_entry_with_stream_witness :
  exists k info u,
    video_entry (link_post "https://example.com/page" (Some two_videos)) = Some (k, u)
    /\ two_videos !! k = Some info
    /\ mi_e info = Some "RedditVideo"
    /\ (forall k' info', two_videos !! k' = Some info' ->
          mi_e info' = Some "RedditVideo" ->
          is_Some (mi_hlsUrl info') \/ is_Some (mi_dashUrl info') -> str_le k k')
    /\ (forall h, mi_hlsUrl info = Some h -> u = h)
    /\ (mi_hlsUrl info = None -> mi_dashUrl info = Some u)
    /\ (forall v,
          video_direct (link_post "https://example.com/page" (Some two_videos)) = Ret v ->
          truthy_opt v = false -> truthy u = true ->
          select_video_url (link_post "https://example.com/page" (Some two_videos))
          = Ret (Some u)).
Proof.
  apply (video_scan_first_entry_with_stream
           (link_post "https://example.com/page" (Some two_videos))
           two_videos "b2" hls_and_dash).
  - reflexivity.
  - vm_compute. reflexivity.
  - reflexivity.
  - left. eexists. reflexivity.
Defined.

(** C3 as stated fails.  The post below has an entry (b2) with both
    addresses and no earlier method applies, yet the address selected is
    the DASH address of the first RedditVideo entry (a1), which has no HLS
    address: it is the HLS address of no entry. *)
Lemma first_video_entry_without_hls :
  ~ (forall (post : Post) (m : gmap string MediaInfo) id mi hls dash,
       p_media_metadata post = Some m ->
       m !! id = Some mi ->
       mi_e mi = Some "RedditVideo" ->
       mi_hlsUrl mi = Some hls ->
       mi_dashUrl mi = Some dash ->
       video_direct post = Ret None ->
       exists k info u,
         m !! k = Some info
         /\ mi_e info = Some "RedditVideo"
         /\ (forall k' info', m !! k' = Some info' ->
               mi_e info' = Some "RedditVideo" -> str_le k k')
         /\ mi_hlsUrl info = Some u
         /\ select_video_url post = Ret (Some u)).
Proof.
  intros claim.
  destruct (claim (link_post "https://example.com/page" (Some two_videos))
              two_videos "b2" hls_and_dash
              "https://v.redd.it/b2/HLSPlaylist.m3u8"
              "https://v.redd.it/b2/DASHPlaylist.mpd")
    as (k & info & u & Hk & _ & Hleast & Hhls & Hsel); try reflexivity.
  assert (select_video_url (link_post "https://example.com/page" (Some two_videos))
          = Ret (Some "https://v.redd.it/a1/DASHPlaylist.mpd")) as Hcode
    by (vm_compute; reflexivity).
  rewrite Hcode in Hsel. injection Hsel as <-.
  unfold two_videos in Hk.
  apply lookup_insert_Some in Hk as [[<- <-]|[_ Hk]]; [discriminate Hhls|].
  apply lookup_singleton_Some in Hk as [<- <-]. discriminate Hhls.
Qed.

(** ** Image resolution from [media_metadata] *)

(** C8, as the code has it.  An entry offers an address when it is
    tagged Image and has a best-quality address, or else a first original
    with an address, or else a first largest preview with an address; the
    address it offers is the first of these.  When [media_metadata] holds
    an entry that offers an address, image resolution stops at the least
    identifier among the entries that offer one (an Image entry that
    offers none is passed over) and takes the address that this entry
    offers, which is unique.  When that address is not empty, the function
    returns it with [&amp;] unescaped. *)
Theorem image_scan_first_entry_with_address (post : Post)
    (m : gmap string MediaInfo) (id : string) (mi : MediaInfo) (u0 : string) :
  p_media_metadata post = Some m ->
  m !! id = Some mi ->
  offers mi u0 ->
  exists k info u,
    image_from_metadata post = Some (k, u)
    /\ m !! k = Some info
    /\ offers info u
    /\ (forall u', offers info u' -> u' = u)
    /\ (forall k' info' u', m !! k' = Some info' -> offers info' u' -> str_le k k')
    /\ (truthy u = true -> download_reddit_image post = Some (replace "&amp;" "&" u)).
Proof.
  intros Hm Hid Hoffer. apply pick_image_offers in Hoffer.
  destruct (scan_sorted_spec pick_image m id mi Hid ltac:(by eexists))
    as (k & info & u & Hscan & Hk & Hpick & Hleast).
  assert (image_from_metadata post = Some (k, u)) as Himg.
  { unfold image_from_metadata. rewrite Hm.
    rewrite (metadata_truthy_lookup m id mi Hid). exact Hscan. }
  exists k, info, u. split_and!; try done.
  - by apply pick_image_offers.
  - intros u' Hu'. apply pick_image_offers in Hu'. congruence.
  - intros k' info' u' Hk' Hu'. eapply Hleast; [done|].
    apply pick_image_offers in Hu'. by eexists.
  - intros Hu. unfold download_reddit_image. rewrite Himg. simpl.
    unfold image_from_url, image_from_preview. simpl.
    repeat (rewrite Hu; simpl). reflexivity.
Qed.

(** The theorem at a post with two image entries. *)
Lemma image_scan_first_entry_with_address_witness :
  exists k info u,
    image_from_metadata (link_post "https://example.com/page" (Some two_images))
    = Some (k, u)
    /\ two_images !! k = Some info
    /\ offers info u
    /\ (forall u', offers info u' -> u' = u)
    /\ (forall k' info' u', two_images !! k' = Some info' -> offers info' u' ->
          str_le k k')
    /\ (truthy u = true ->
        download_reddit_image (link_post "https://example.com/page" (Some two_images))
        = Some (replace "&amp;" "&" u)).
Proof.
  apply (image_scan_first_entry_with_address
           (link_post "https://example.com/page" (Some two_images))
           two_images "b2" image_with_best
           "https://preview.redd.it/b2.jpg?s=1&amp;w=2").
  - reflexivity.
  - vm_compute. reflexivity.
  - vm_compute. split; reflexivity.
Defined.

(** C8 as stated fails.  The post below has two Image entries and no
    video; the entry with the smallest identifier (a1) has no address, and
    the address returned comes from the other entry (b2). *)
Lemma smallest_image_entry_without_address :
  ~ (forall (post : Post) (m : gmap string MediaInfo) id1 id2 mi1 mi2,
       p_media_metadata post = Some m ->
       id1 <> id2 ->
       m !! id1 = Some mi1 -> mi_e mi1 = Some "Image" ->
       m !! id2 = Some mi2 -> mi_e mi2 = Some "Image" ->
       select_video_url post = Ret None ->
       forall k u, image_from_metadata post = Some (k, u) ->
         forall k' info', m !! k' = Some info' -> mi_e info' = Some "Image" ->
           str_le k k').
Proof.
  intros claim.
  assert (str_le "b2" "a1") as Hle.
  { apply (claim (link_post "https://example.com/page" (Some two_images))
             two_images "a1" "b2" (tagged "Image") image_with_best)
      with (u := "https://preview.redd.it/b2.jpg?s=1&amp;w=2")
           (info' := tagged "Image");
      try reflexivity; try discriminate; vm_compute; reflexivity. }
  vm_compute in Hle. discriminate Hle.
Qed.

(** ** Subject name *)

(** C4.  The two titles of the specification behave as it says.  The
    general rule does not hold: the class of deleted characters contains
    the space, so the words of the segment are joined before they are
    tested, and the test looks at the joined word only.  For the title
    [ana Maria | Special post] the word Maria starts with an upper-case
    letter and is longer than one character, yet no name is extracted;
    for [A b | Special post] no word qualifies, yet the segment is
    accepted.  [subject_name] is the rule in the words of the
    specification. *)
Theorem extract_model_name_reads_segment_as_one_word :
  extract_model_name "Ana Maria | Special post" = Some "Ana Maria"
  /\ extract_model_name "123 | no name" = None
  /\ extract_model_name "ana Maria | Special post" = None
  /\ subject_name "ana Maria | Special post" = Some "ana Maria"
  /\ extract_model_name "A b | Special post" = Some "A b"
  /\ subject_name "A b | Special post" = None.
Proof. vm_compute. repeat split. Qed.

(** ** Loading the state files *)

(** C6.  A missing file gives the empty state for both files, and the
    failure queue also starts empty when its file cannot be opened or does
    not parse.  The set of processed posts does not: a file that does not
    parse, or cannot be opened, makes [load_processed_posts] raise. *)
Theorem load_processed_posts_garbled_raises :
  load_processed_posts Garbled = Raise JSONDecodeError
  /\ load_processed_posts Unreadable = Raise PermissionError
  /\ load_processed_posts Missing = Ret ∅
  /\ load_failed_messages Missing = Ret []
  /\ load_failed_messages Unreadable = Ret []
  /\ load_failed_messages Garbled = Ret [].
Proof. repeat split. Qed.

(** ** Delivery *)







(** ** The failure queue *)

Section Drain.
Variable w : World.

Lemma send_text_message_run (token chat message : string) (st : State) :
  credentials (config st) = Ret (token, chat) ->
  send_text_message w message st
  = (Ret (delivered (w_post w (clock st))), after_text w token chat message st).
Proof.
  intros Hkeys. unfold send_text_message, requests_post, after_text.
  unfold_effects. rewrite Hkeys. cbn. by destruct (w_post w (clock st)).
Qed.

Lemma send_text_message_without_keys (e : Exn) (message : string) (st : State) :
  credentials (config st) = Raise e ->
  send_text_message w message st = (Raise e, st).
Proof.
  intros Hkeys. unfold send_text_message. unfold_effects. by rewrite Hkeys.
Qed.

(** The loop: the marked positions, the records with their counters,
    one request per record. *)
Lemma retry_each_run (token chat : string) (pending : list FailureRecord) :
  forall (i : nat) (st : State) (pre : list FailureRecord),
    credentials (config st) = Ret (token, chat) ->
    failed_messages st = pre ++ pending ->
    length pre = i ->
    exists st',
      retry_each w i pending st = (Ret (marks w (clock st) i pending), st')
      /\ failed_messages st' = pre ++ retried w (clock st) pending
      /\ clock st' = clock st + length pending
      /\ events st' = rev (attempts w token chat (clock st) pending) ++ events st
      /\ failed_file st' = failed_file st
      /\ config st' = config st.
Proof.
  induction pending as [|r rest IH]; intros i st pre Hkeys Hq Hlen.
  - exists st. cbn. rewrite Nat.add_0_r. by rewrite Hq.
  - cbn [retry_each]. unfold bind, try_except.
    rewrite (send_text_message_run token chat) by done.
    destruct (delivered (w_post w (clock st))) eqn:Hd.
    + destruct (IH (S i) (after_text w token chat (retry_text r) st) (pre ++ [r]))
        as (st' & Hrun & Hfm & Hck & Hev & Hff & Hcfg).
      { done. }
      { cbn. rewrite Hq. by rewrite <- app_assoc. }
      { rewrite length_app. cbn. lia. }
      exists st'. cbn [ret]. rewrite Hrun. cbn. rewrite Hd.
      split_and!; try done.
      * rewrite Hfm. cbn. by rewrite <- app_assoc.
      * rewrite Hck. cbn. lia.
      * rewrite Hev. cbn. by rewrite <- app_assoc.
    + set (st1 := after_text w token chat (retry_text r) st).
      set (st2 := set_failed_messages (<[i := bump r]> (failed_messages st1)) st1).
      destruct (IH (S i) st2 (pre ++ [bump r]))
        as (st' & Hrun & Hfm & Hck & Hev & Hff & Hcfg).
      { done. }
      { cbn. rewrite Hq. rewrite <- Hlen.
        rewrite insert_app_r_alt by lia. rewrite Nat.sub_diag. cbn.
        by rewrite <- app_assoc. }
      { rewrite length_app. cbn. lia. }
      exists st'. unfold count_failure. unfold_effects. fold st2.
      destruct (3 <=? fr_retry_count (bump r))%nat eqn:Hc; cbn in Hc; rewrite ?Hc;
        rewrite Hrun; cbn; rewrite Hd, Hc.
      all: split_and!; try done.
      all: try (rewrite Hfm; cbn; by rewrite <- app_assoc).
      all: try (rewrite Hck; cbn; lia).
      all: try (rewrite Hev; cbn; by rewrite <- app_assoc).
Qed.

(** What a queue becomes when no retry succeeds does not depend on the
    clock. *)
Lemma deaf_ignores_clock (q : list FailureRecord) (c c' i : nat) :
  marks (deaf w) c i q = marks (deaf w) c' i q
  /\ retried (deaf w) c q = retried (deaf w) c' q
  /\ survivors (deaf w) c q = survivors (deaf w) c' q.
Proof.
  revert c c' i. induction q as [|r q IH]; intros c c' i; [done|].
  cbn [marks retried survivors deaf w_post delivered].
  destruct (IH (S c) (S c') (S i)) as (-> & -> & ->). done.
Qed.

(** The loop of a bot without credentials: every retry fails at the
    lookup, before any request. *)
Lemma retry_each_without_keys (e : Exn) (pending : list FailureRecord) :
  forall (i : nat) (st : State) (pre : list FailureRecord),
    credentials (config st) = Raise e ->
    failed_messages st = pre ++ pending ->
    length pre = i ->
    exists st',
      retry_each w i pending st = (Ret (marks (deaf w) (clock st) i pending), st')
      /\ failed_messages st' = pre ++ retried (deaf w) (clock st) pending
      /\ clock st' = clock st
      /\ events st' = events st
      /\ failed_file st' = failed_file st
      /\ config st' = config st.
Proof.
  induction pending as [|r rest IH]; intros i st pre Hkeys Hq Hlen.
  - exists st. cbn. by rewrite Hq.
  - cbn [retry_each]. unfold bind, try_except.
    rewrite (send_text_message_without_keys e) by done. unfold except_all.
    set (st2 := set_failed_messages (<[i := bump r]> (failed_messages st)) st).
    destruct (IH (S i) st2 (pre ++ [bump r]))
      as (st' & Hrun & Hfm & Hck & Hev & Hff & Hcfg).
    { done. }
    { cbn. rewrite Hq. rewrite <- Hlen.
      rewrite insert_app_r_alt by lia. rewrite Nat.sub_diag. cbn.
      by rewrite <- app_assoc. }
    { rewrite length_app. cbn. lia. }
    destruct (deaf_ignores_clock rest (clock st) (S (clock st)) (S i))
      as (Hmarks & Hretried & _).
    cbn [clock st2 set_failed_messages] in Hrun, Hfm.
    exists st'. unfold count_failure. unfold_effects. fold st2.
    cbn [marks retried deaf w_post delivered]. rewrite <- Hmarks, <- Hretried.
    change (fr_retry_count (bump r)) with (S (fr_retry_count r)).
    destruct (3 <=? S (fr_retry_count r))%nat; rewrite Hrun.
    all: split_and!; try done.
    all: rewrite Hfm; by rewrite <- app_assoc.
Qed.

(** Popping the marked positions from the last to the first leaves the
    survivors. *)
Lemma pop_reversed_marks (v : World) (q : list FailureRecord) :
  forall (c : nat) (pre : list FailureRecord),
    pop_reversed (marks v c (length pre) q) (pre ++ retried v c q)
    = pre ++ survivors v c q.
Proof.
  unfold pop_reversed.
  induction q as [|r q IH]; intros c pre; [done|].
  cbn [marks retried survivors]. rewrite foldr_app.
  set (r' := if delivered (w_post v c) then r else bump r).
  replace (pre ++ r' :: retried v (S c) q) with ((pre ++ [r']) ++ retried v (S c) q)
    by (by rewrite <- app_assoc).
  replace (S (length pre)) with (length (pre ++ [r']))
    by (rewrite length_app; cbn; lia).
  rewrite IH. rewrite <- app_assoc. cbn [app].
  subst r'. destruct (delivered (w_post v c)).
  - cbn. apply delete_middle.
  - destruct (3 <=? S (fr_retry_count r))%nat; cbn; [apply delete_middle|done].
Qed.

Lemma survivors_length (v : World) (q : list FailureRecord) (c : nat) :
  length (survivors v c q) <= length q.
Proof.
  revert c. induction q as [|r q IH]; intros c; cbn [survivors length]; [lia|].
  specialize (IH (S c)).
  destruct (delivered (w_post v c)); [lia|].
  destruct (3 <=? S (fr_retry_count r))%nat; cbn [length]; lia.
Qed.

Lemma marks_nil_iff (v : World) (q : list FailureRecord) (c i : nat) :
  marks v c i q = [] <-> length (survivors v c q) = length q.
Proof.
  revert c i.
  induction q as [|r q IH]; intros c i; cbn [survivors marks length]; [done|].
  specialize (IH (S c) (S i)). pose proof (survivors_length v q (S c)) as Hle.
  destruct (delivered (w_post v c)); [split; [done|lia]|].
  destruct (3 <=? S (fr_retry_count r))%nat; cbn [length app]; [split; [done|lia]|].
  rewrite IH. lia.
Qed.

(** What a drain does, component by component. *)
Lemma retry_failed_messages_run (st : State) :
  let q := failed_messages st in
  let v := heard w (config st) in
  let ticks :=
    match credentials (config st) with Ret _ => length q | Raise _ => 0 end in
  exists st',
    retry_failed_messages w st = (Ret tt, st')
    /\ failed_messages st' = survivors v (clock st) q
    /\ events st' = rev (retries w (config st) (clock st) q) ++ events st
    /\ failed_file st'
       = (if (length (survivors v (clock st) q) =? length q)%nat
          then failed_file st
          else written (w_write w (clock st + ticks)) (failed_file st)
                 (survivors v (clock st) q))
    /\ config st' = config st.
Proof.
  cbn zeta. unfold retry_failed_messages. unfold bind at 1. unfold get_state.
  destruct (failed_messages st) as [|r q] eqn:Hq.
  { exists st. cbn. rewrite Hq. unfold retries.
    destruct (credentials (config st)) as [[token chat]|e]; done. }
  assert (exists st1,
            retry_each w 0 (r :: q) st
            = (Ret (marks (heard w (config st)) (clock st) 0 (r :: q)), st1)
            /\ failed_messages st1 = retried (heard w (config st)) (clock st) (r :: q)
            /\ clock st1
               = clock st + match credentials (config st) with
                            | Ret _ => length (r :: q)
                            | Raise _ => 0
                            end
            /\ events st1
               = rev (retries w (config st) (clock st) (r :: q)) ++ events st
            /\ failed_file st1 = failed_file st
            /\ config st1 = config st)
    as (st1 & Hrun & Hfm & Hck & Hev & Hff & Hcfg).
  { unfold heard, retries.
    destruct (credentials (config st)) as [[token chat]|e] eqn:Hkeys.
    - destruct (retry_each_run token chat (r :: q) 0 st [] Hkeys Hq eq_refl)
        as (st1 & ? & ? & ? & ? & ? & ?). by exists st1.
    - destruct (retry_each_without_keys e (r :: q) 0 st [] Hkeys Hq eq_refl)
        as (st1 & ? & ? & Hck & ? & ? & ?). exists st1.
      split_and!; try done. rewrite Hck. lia. }
  set (v := heard w (config st)) in *.
  unfold bind at 1. rewrite Hrun.
  pose proof (pop_reversed_marks v (r :: q) (clock st) []) as Hpop.
  cbn [app length] in Hpop.
  pose proof (marks_nil_iff v (r :: q) (clock st) 0) as Hnil.
  destruct (marks v (clock st) 0 (r :: q)) as [|i0 rm] eqn:Hmarks.
  - assert (length (survivors v (clock st) (r :: q)) = length (r :: q)) as Hsame
      by by apply Hnil.
    rewrite Hsame, Nat.eqb_refl. unfold_effects. eexists. split; [reflexivity|].
    state_simpl. by rewrite Hfm, Hpop, Hev, Hff.
  - assert (length (survivors v (clock st) (r :: q)) <> length (r :: q)) as Hdiff.
    { intros H. apply Hnil in H. discriminate H. }
    apply Nat.eqb_neq in Hdiff. rewrite Hdiff.
    unfold save_failed_messages. unfold_effects. state_simpl.
    rewrite Hfm, Hpop, Hck, Hff.
    match goal with
    | |- context [w_write w ?n] => destruct (w_write w n)
    end; state_simpl;
      eexists; (split; [reflexivity|]); state_simpl;
      rewrite ?Hfm, ?Hpop, ?Hev; done.
Qed.

Lemma survivors_origin (v : World) (q : list FailureRecord) (c : nat) :
  Forall (fun r => exists r0, r0 ∈ q /\ r = bump r0 /\ fr_retry_count r < 3)
         (survivors v c q).
Proof.
  revert c. induction q as [|r q IH]; intros c; cbn [survivors]; [constructor|].
  assert (Forall (fun r1 => exists r0, r0 ∈ r :: q /\ r1 = bump r0
                                     /\ fr_retry_count r1 < 3)
                 (survivors v (S c) q)) as Hrest.
  { eapply Forall_impl; [apply IH|]. intros r1 (r0 & Hin & Heq & Hlt).
    exists r0. split_and!; try done. by right. }
  destruct (delivered (w_post v c)); [done|].
  destruct (3 <=? S (fr_retry_count r))%nat eqn:Hc; [done|].
  constructor; [|done]. exists r. split_and!; [left|done|].
  apply Nat.leb_gt in Hc. cbn. lia.
Qed.

Lemma survivors_counter_grows (v : World) (k : nat) (q : list FailureRecord)
    (c : nat) :
  Forall (fun r => k <= fr_retry_count r) q ->
  Forall (fun r => S k <= fr_retry_count r) (survivors v c q).
Proof.
  revert c. induction q as [|r q IH]; intros c Hall; cbn [survivors]; [constructor|].
  apply Forall_cons in Hall as [Hr Hq].
  destruct (delivered (w_post v c)); [by apply IH|].
  destruct (3 <=? S (fr_retry_count r))%nat; [by apply IH|].
  constructor; [cbn; lia|by apply IH].
Qed.

Lemma drain_queue (st : State) :
  failed_messages (exec (retry_failed_messages w) st)
  = survivors (heard w (config st)) (clock st) (failed_messages st).
Proof.
  destruct (retry_failed_messages_run st) as (st' & Hrun & Hfm & _).
  unfold exec. by rewrite Hrun.
Qed.

Lemma drains_counter_grows (n : nat) :
  forall (k : nat) (st : State),
    Forall (fun r => k <= fr_retry_count r) (failed_messages st) ->
    Forall (fun r => k + n <= fr_retry_count r) (failed_messages (drains w n st)).
Proof.
  induction n as [|n IH]; intros k st Hall; cbn [drains].
  - eapply Forall_impl; [done|]. intros r Hr. cbn in Hr. lia.
  - specialize (IH (S k) (exec (retry_failed_messages w) st)).
    eapply Forall_impl; [apply IH|].
    + rewrite drain_queue. by apply survivors_counter_grows.
    + intros r Hr. cbn in Hr. lia.
Qed.

Lemma drains_below_ceiling (n : nat) :
  forall st : State,
    Forall (fun r => fr_retry_count r < 3) (failed_messages (drains w (S n) st)).
Proof.
  induction n as [|n IH]; intros st.
  - cbn [drains]. rewrite drain_queue.
    eapply Forall_impl; [apply survivors_origin|]. by intros r (_ & _ & _ & Hlt).
  - change (drains w (S (S n)) st)
      with (drains w (S n) (exec (retry_failed_messages w) st)).
    apply IH.
Qed.

End Drain.

(** C2.  A drain leaves exactly the records whose retry failed with a
    counter still below 3, each with its counter incremented by one and
    nothing else changed.  So every record that remains is a record of the
    queue before the drain with its counter one higher, and its counter is
    below 3; a record whose counter reaches 3 is not in the queue after
    that drain.  With the credentials in the configuration, every pending
    record is retried once per drain, by one text request, and [heard] is
    the endpoint itself; without them no request is made and every retry
    fails.  After three drains in a row nothing that was in the queue is
    left, so no record is retried a fourth time. *)
Theorem drain_enforces_retry_ceiling (w : World) (st : State) :
  let st' := exec (retry_failed_messages w) st in
  failed_messages st'
  = survivors (heard w (config st)) (clock st) (failed_messages st)
  /\ (forall token chat, credentials (config st) = Ret (token, chat) ->
        failed_messages st' = survivors w (clock st) (failed_messages st)
        /\ events st'
           = rev (attempts w token chat (clock st) (failed_messages st)) ++ events st)
  /\ (forall e, credentials (config st) = Raise e -> events st' = events st)
  /\ Forall (fun r => exists r0, r0 ∈ failed_messages st /\ r = bump r0
                               /\ fr_retry_count r < 3)
            (failed_messages st')
  /\ failed_messages (drains w 3 st) = [].
Proof.
  cbn zeta. destruct (retry_failed_messages_run w st) as (st' & Hrun & Hfm & Hev & _).
  unfold exec at 1 2 3 4 5. rewrite Hrun. cbn [snd]. split_and!; try done.
  - intros token chat Hkeys. unfold heard, retries in *. by rewrite Hkeys in Hfm, Hev.
  - intros e Hkeys. unfold retries in Hev. by rewrite Hkeys in Hev.
  - rewrite Hfm. apply survivors_origin.
  - pose proof (drains_counter_grows w 3 0 st) as Hlow.
    pose proof (drains_below_ceiling w 2 st) as Hhigh.
    destruct (failed_messages (drains w 3 st)) as [|r q]; [done|].
    apply Forall_cons in Hhigh as [Hlt _].
    assert (Forall (fun r => 0 <= fr_retry_count r) (failed_messages st)) as Hzero.
    { apply Forall_forall. intros. lia. }
    apply Hlow in Hzero. apply Forall_cons in Hzero as [Hge _]. cbn in Hge. lia.
Qed.

(** C5, as the code has it.  A drain never raises.  The file of the
    failure queue is rewritten exactly when the drain removed a record:
    then it is written once, after the requests of the drain (one per
    record when the configuration has the credentials, none otherwise),
    with the queue as the drain leaves it, and holds that queue if the
    write succeeds.  When no record was removed the file is left as it
    was, whatever happened to the counters. *)
Theorem drain_saves_only_after_removal (w : World) (st : State) :
  let st' := exec (retry_failed_messages w) st in
  let requests :=
    match credentials (config st) with
    | Ret _ => length (failed_messages st)
    | Raise _ => 0
    end in
  value (retry_failed_messages w) st = Ret tt
  /\ failed_file st'
     = (if (length (failed_messages st') =? length (failed_messages st))%nat
        then failed_file st
        else written (w_write w (clock st + requests))
               (failed_file st) (failed_messages st')).
Proof.
  cbn zeta. destruct (retry_failed_messages_run w st) as (st' & Hrun & Hfm & _ & Hff & _).
  unfold value, exec. rewrite Hrun. cbn [fst snd]. split; [done|].
  by rewrite Hfm.
Qed.

(** C5 as stated fails.  With one pending record whose retry fails, and a
    file system on which every write succeeds, the drain leaves the
    record in memory with counter 1 and the file with counter 0. *)
Lemma failed_retry_not_flushed :
  ~ (forall (w : World) (st : State),
       (forall n, w_write w n = Written) ->
       failed_messages st <> [] ->
       failed_file (exec (retry_failed_messages w) st)
       = Stored (failed_messages (exec (retry_failed_messages w) st))).
Proof.
  intros claim.
  specialize (claim (world RequestFailed) one_pending (fun _ => eq_refl)).
  vm_compute in claim. specialize (claim ltac:(discriminate)). discriminate claim.
Qed.

(** ** Orchestration *)

Lemma has_media_content_bare (post : Post) :
  p_is_self post = true ->
  flag (p_is_video post) = false ->
  metadata_truthy (p_media_metadata post) = false ->
  media_truthy (p_media post) = false ->
  preview_truthy (p_preview post) = false ->
  has_media_content post = false.
Proof.
  intros Hs Hv Hmm Hm Hp. unfold has_media_content.
  by rewrite Hv, Hmm, Hm, Hp, Hs.
Qed.

(** C9.  For a self-text post with no video flag, no media metadata, no
    media and no preview, when [send_text_only_posts] is false or absent,
    the loop body ends normally with the identifier of the post in the
    set of processed posts, and it interacts with nothing: the trace and
    the clock are as before (no text, photo or video request), and so is
    the failure queue. *)
Theorem text_only_post_marked_without_delivery (w : World) (st : State) (post : Post) :
  p_is_self post = true ->
  flag (p_is_video post) = false ->
  metadata_truthy (p_media_metadata post) = false ->
  media_truthy (p_media post) = false ->
  preview_truthy (p_preview post) = false ->
  flag (send_text_only_posts (config st)) = false ->
  value (process_post w post) st = Ret tt
  /\ p_id post ∈ processed_posts (exec (process_post w post) st)
  /\ events (exec (process_post w post) st) = events st
  /\ clock (exec (process_post w post) st) = clock st
  /\ failed_messages (exec (process_post w post) st) = failed_messages st.
Proof.
  intros Hs Hv Hmm Hm Hp Hcfg.
  pose proof (has_media_content_bare post Hs Hv Hmm Hm Hp) as Hnone.
  unfold value, exec, process_post, bind, get_state. simpl.
  case_bool_decide as Hin.
  - by cbn.
  - rewrite Hcfg, Hnone. cbn. split_and!; try done. set_solver.
Qed.

(** The theorem at a text post, on a bot that has processed nothing. *)
Lemma text_only_post_marked_without_delivery_witness :
  value (process_post (world Delivered) text_post) idle = Ret tt
  /\ p_id text_post ∈ processed_posts (exec (process_post (world Delivered) text_post) idle)
  /\ events (exec (process_post (world Delivered) text_post) idle) = events idle
  /\ clock (exec (process_post (world Delivered) text_post) idle) = clock idle
  /\ failed_messages (exec (process_post (world Delivered) text_post) idle)
     = failed_messages idle.
Proof.
  apply (text_only_post_marked_without_delivery (world Delivered) idle text_post);
    reflexivity.
Defined.

(** ** Worked runs *)

(** A photo request that fails: the record is queued and saved, the
    fallback text goes out, and the call reports the outcome of the text. *)
Example photo_failure_falls_back_to_text :
  let run := send_telegram_message (scripted [(0, RequestFailed)]) "hello"
               (Some "https://i.redd.it/x.jpg") None
               (Some "https://reddit.com/r/pics/1") false in
  value run idle = Ret true
  /\ length (events (exec run idle)) = 2
  /\ fr_media_url <$> failed_messages (exec run idle) = [Some "https://i.redd.it/x.jpg"]
  /\ failed_file (exec run idle) = Stored (failed_messages (exec run idle)).
Proof. vm_compute. repeat split. Qed.

(** A video request that breaks outside the request exceptions: the
    record is queued and the call reports failure without a text. *)
Example video_crash_is_queued_without_text :
  let run := send_telegram_message (scripted [(2, Crashed)]) "hello" None
               (Some "/tmp/tmpq1.mp4") (Some "https://reddit.com/r/pics/1") false in
  value run idle = Ret false
  /\ length (events (exec run idle)) = 1
  /\ fr_media_url <$> failed_messages (exec run idle) = [Some "/tmp/tmpq1.mp4"].
Proof. vm_compute. repeat split. Qed.

(** A record that never goes through: counter 2 after two drains, gone
    after the third, and the file is rewritten at that point. *)
Example three_failures_evict_the_record :
  fr_retry_count <$> failed_messages (drains (world RequestFailed) 2 one_pending) = [2]
  /\ failed_file (drains (world RequestFailed) 2 one_pending) = Stored [record0]
  /\ failed_messages (drains (world RequestFailed) 3 one_pending) = []
  /\ failed_file (drains (world RequestFailed) 3 one_pending) = Stored [].
Proof. vm_compute. repeat split. Qed.

(** A link to a [.png] file resolves to its address, unescaped. *)
Example png_link_resolves_unescaped :
  download_reddit_image (link_post "https://i.redd.it/x.png?a=1&amp;b=2" None)
  = Some "https://i.redd.it/x.png?a=1&b=2".
Proof. vm_compute. reflexivity. Qed.

(** * Further properties of the code *)

Import Frames Observations Cases.

(** ** Rules for the frame relations *)

Section Rules.
Context (R : State -> State -> Prop) `{!PreOrder R}.

Lemma keeps_ret {A} (a : A) : keeps R (ret a).
Proof. intros st. cbn. reflexivity. Qed.

Lemma keeps_raise {A} (e : Exn) : keeps R (@raise A e).
Proof. intros st. cbn. reflexivity. Qed.

Lemma keeps_lift {A} (o : Outcome A) : keeps R (lift o).
Proof. intros st. cbn. reflexivity. Qed.

Lemma keeps_get_state : keeps R get_state.
Proof. intros st. cbn. reflexivity. Qed.

Lemma keeps_bind {A B} (m : M A) (k : A -> M B) :
  keeps R m -> (forall a, keeps R (k a)) -> keeps R (bind m k).
Proof.
  intros Hm Hk st. unfold bind. specialize (Hm st).
  destruct (m st) as [[a|e] st1]; cbn in *; [|done].
  etrans; [exact Hm|]. apply Hk.
Qed.

Lemma keeps_try_except {A} (body : M A) (handler : Exn -> option (M A)) :
  keeps R body -> (forall e h, handler e = Some h -> keeps R h) ->
  keeps R (try_except body handler).
Proof.
  intros Hb Hh st. unfold try_except. specialize (Hb st).
  destruct (body st) as [[a|e] st1]; cbn in *; [done|].
  destruct (handler e) as [h|] eqn:He; [|done].
  etrans; [exact Hb|]. by eapply Hh.
Qed.

End Rules.

Lemma never_raises_ret {A} (a : A) : never_raises (ret a).
Proof. intros st. by exists a. Qed.

Lemma never_raises_bind {A B} (m : M A) (k : A -> M B) :
  never_raises m -> (forall a, never_raises (k a)) -> never_raises (bind m k).
Proof.
  intros Hm Hk st. unfold bind. destruct (Hm st) as [a Ha].
  destruct (m st) as [o st1]. cbn in Ha. subst o. apply Hk.
Qed.

Lemma never_raises_try_except {A} (body : M A) (handler : Exn -> option (M A)) :
  (forall e, exists h, handler e = Some h /\ never_raises h) ->
  never_raises (try_except body handler).
Proof.
  intros Hh st. unfold try_except.
  destruct (body st) as [[a|e] st1]; [by exists a|].
  destruct (Hh e) as (h & -> & Hn). apply Hn.
Qed.

Lemma never_raises_modify (f : State -> State) : never_raises (modify f).
Proof. intros st. by exists tt. Qed.

Lemma never_raises_tick : never_raises tick.
Proof. intros st. by eexists. Qed.

Lemma never_raises_emit (e : Event) : never_raises (emit e).
Proof. intros st. by exists tt. Qed.

#[global] Instance only_interacts_preorder : PreOrder only_interacts.
Proof.
  split.
  - intros st. unfold only_interacts. split_and!; try done.
  - intros a b c (H1 & H2 & H3 & H4 & H5 & H6 & H7) (G1 & G2 & G3 & G4 & G5 & G6 & G7).
    unfold only_interacts. split_and!; try congruence; [by etrans|lia].
Qed.

#[global] Instance grows_preorder : PreOrder grows.
Proof.
  split.
  - intros st. unfold grows. split_and!; try done.
  - intros a b c (H1 & H2 & H3 & H4 & H5) (G1 & G2 & G3 & G4 & G5).
    unfold grows. split_and!; try congruence; try (by etrans); lia.
Qed.

#[global] Instance queue_only_preorder : PreOrder queue_only.
Proof.
  split.
  - intros st. unfold queue_only. split_and!; try done.
  - intros a b c (H1 & H2 & H3 & H4 & H5) (G1 & G2 & G3 & G4 & G5).
    unfold queue_only. split_and!; try congruence; try (by etrans); lia.
Qed.

Lemma only_interacts_grows st st' : only_interacts st st' -> grows st st'.
Proof.
  intros (H1 & H2 & H3 & H4 & H5 & H6 & H7). unfold grows.
  rewrite H2, H3. split_and!; done.
Qed.

Lemma only_interacts_queue_only st st' : only_interacts st st' -> queue_only st st'.
Proof.
  intros (H1 & H2 & H3 & H4 & H5 & H6 & H7). unfold queue_only. done.
Qed.

Lemma keeps_weaken (R1 R2 : State -> State -> Prop) {A} (m : M A) :
  (forall st st', R1 st st' -> R2 st st') -> keeps R1 m -> keeps R2 m.
Proof. intros H Hm st. apply H, Hm. Qed.

Lemma only_interacts_tick : keeps only_interacts tick.
Proof. intros st. cbn. unfold only_interacts. cbn. split_and!; try done. lia. Qed.

Lemma only_interacts_emit (e : Event) : keeps only_interacts (emit e).
Proof.
  intros st. cbn. unfold only_interacts. cbn. split_and!; try done.
  by apply suffix_cons_r.
Qed.

Create HintDb frames.

Ltac handler_cases :=
  repeat match goal with
    | H : except_all _ _ = Some _ |- _ => unfold except_all in H; injection H as <-
    | H : except_only ?c _ ?e = Some _ |- _ =>
        unfold except_only in H; destruct (c e); [injection H as <-|discriminate H]
    | H : (if ?b then Some _ else Some _) = Some _ |- _ => destruct b; injection H as <-
    | H : (if ?b then Some _ else None) = Some _ |- _ =>
        destruct b; [injection H as <-|discriminate H]
    end.

(** Decomposes a goal [keeps R m] along the structure of [m]. *)
Ltac frame_step R :=
  first
    [ solve [eauto 2 with frames]
    | apply (keeps_ret R) | apply (keeps_raise R) | apply (keeps_lift R)
    | apply (keeps_get_state R)
    | apply (keeps_bind R); [|intros ?]
    | apply (keeps_try_except R); [|intros ? ? ?; handler_cases]
    | match goal with
      | |- keeps _ (if ?b then _ else _) => destruct b
      | |- keeps _ (match ?x with _ => _ end) => destruct x
      end ].

Ltac frame R := repeat (frame_step R); eauto with frames.

#[global] Hint Resolve only_interacts_tick only_interacts_emit : frames.

Lemma grows_tick : keeps grows tick.
Proof. eapply keeps_weaken; [apply only_interacts_grows|apply only_interacts_tick]. Qed.

Lemma grows_emit (e : Event) : keeps grows (emit e).
Proof. eapply keeps_weaken; [apply only_interacts_grows|apply only_interacts_emit]. Qed.

Lemma queue_only_tick : keeps queue_only tick.
Proof.
  eapply keeps_weaken; [apply only_interacts_queue_only|apply only_interacts_tick].
Qed.

Lemma queue_only_emit (e : Event) : keeps queue_only (emit e).
Proof.
  eapply keeps_weaken; [apply only_interacts_queue_only|apply only_interacts_emit].
Qed.

#[global] Hint Resolve grows_tick grows_emit queue_only_tick queue_only_emit : frames.
#[global] Hint Resolve never_raises_ret never_raises_modify never_raises_tick
  never_raises_emit : frames.

Section ResolverFrames.
Variable w : World.

Lemma named_temporary_file_interacts : keeps only_interacts (named_temporary_file w).
Proof. unfold named_temporary_file. frame only_interacts. Qed.

Lemma unlink_if_exists_interacts : keeps only_interacts (unlink_if_exists w).
Proof. unfold unlink_if_exists. frame only_interacts. Qed.

Lemma run_downloader_interacts url : keeps only_interacts (run_downloader w url).
Proof. unfold run_downloader. frame only_interacts. Qed.

Lemma find_downloaded_interacts : keeps only_interacts (find_downloaded w).
Proof. unfold find_downloaded. frame only_interacts. Qed.

Lemma list_formats_interacts : keeps only_interacts (list_formats).
Proof. unfold list_formats. frame only_interacts. Qed.

Hint Resolve named_temporary_file_interacts unlink_if_exists_interacts
  run_downloader_interacts find_downloaded_interacts list_formats_interacts : frames.

Lemma run_and_collect_interacts url : keeps only_interacts (run_and_collect w url).
Proof. unfold run_and_collect. frame only_interacts. Qed.

Hint Resolve run_and_collect_interacts : frames.

Lemma convert_hls_to_mp4_interacts url : keeps only_interacts (convert_hls_to_mp4 w url).
Proof. unfold convert_hls_to_mp4. frame only_interacts. Qed.

Lemma fetch_to_temp_interacts url : keeps only_interacts (fetch_to_temp w url).
Proof. unfold fetch_to_temp. frame only_interacts. Qed.

Hint Resolve convert_hls_to_mp4_interacts fetch_to_temp_interacts : frames.

Lemma download_reddit_video_interacts post :
  keeps only_interacts (download_reddit_video w post).
Proof. unfold download_reddit_video. frame only_interacts. Qed.

Lemma download_reddit_video_never_raises post :
  never_raises (download_reddit_video w post).
Proof.
  unfold download_reddit_video. apply never_raises_try_except.
  intros e. eexists. split; [reflexivity|]. apply never_raises_ret.
Qed.

End ResolverFrames.

#[global] Hint Resolve named_temporary_file_interacts unlink_if_exists_interacts
  run_downloader_interacts find_downloaded_interacts list_formats_interacts
  run_and_collect_interacts convert_hls_to_mp4_interacts fetch_to_temp_interacts
  download_reddit_video_interacts : frames.

Ltac safe_step :=
  first
    [ apply never_raises_ret | apply never_raises_modify | apply never_raises_tick
    | apply never_raises_emit
    | apply never_raises_bind; [|intros ?]
    | apply never_raises_try_except; intros ?; unfold except_all, except_only;
      eexists; (split; [reflexivity|])
    | match goal with
      | |- never_raises (if ?b then _ else _) => destruct b
      | |- never_raises (match ?x with _ => _ end) => destruct x
      end ].

Ltac safe := repeat safe_step; eauto with frames.

Lemma never_raises_get_state : never_raises get_state.
Proof. intros st. by eexists. Qed.
#[global] Hint Resolve never_raises_get_state : frames.

Lemma grows_set_failed_file f :
  keeps grows (modify (fun st => set_failed_file (f st) st)).
Proof. intros st. cbn. unfold grows. cbn. done. Qed.

Lemma grows_set_processed_file f :
  keeps grows (modify (fun st => set_processed_file (f st) st)).
Proof. intros st. cbn. unfold grows. cbn. done. Qed.

Lemma grows_append_failed r :
  keeps grows (modify (fun st => set_failed_messages (failed_messages st ++ [r]) st)).
Proof.
  intros st. cbn. unfold grows. cbn. split_and!; try done. by apply prefix_app_r.
Qed.

Lemma grows_mark_processed post : keeps grows (mark_processed post).
Proof.
  intros st. cbn. unfold grows. cbn. split_and!; try done. set_solver.
Qed.

#[global] Hint Resolve grows_set_failed_file grows_set_processed_file
  grows_append_failed grows_mark_processed : frames.

Section DeliveryFrames.
Variable w : World.

Lemma save_processed_posts_grows : keeps grows (save_processed_posts w).
Proof. unfold save_processed_posts. frame grows. Qed.

Lemma save_failed_messages_grows : keeps grows (save_failed_messages w).
Proof. unfold save_failed_messages. frame grows. Qed.

Lemma save_failed_messages_never_raises : never_raises (save_failed_messages w).
Proof. unfold save_failed_messages. safe. Qed.

Hint Resolve save_processed_posts_grows save_failed_messages_grows
  save_failed_messages_never_raises : frames.

Lemma add_failed_message_grows message media_url post_url :
  keeps grows (add_failed_message w message media_url post_url).
Proof. unfold add_failed_message. frame grows. Qed.

Lemma add_failed_message_never_raises message media_url post_url :
  never_raises (add_failed_message w message media_url post_url).
Proof. unfold add_failed_message. safe. Qed.

Lemma requests_post_interacts r : keeps only_interacts (requests_post w r).
Proof. unfold requests_post. frame only_interacts. Qed.

Hint Resolve add_failed_message_grows add_failed_message_never_raises
  requests_post_interacts : frames.

Lemma send_text_message_interacts message :
  keeps only_interacts (send_text_message w message).
Proof. unfold send_text_message. frame only_interacts. Qed.

Lemma local_video_interacts p : keeps only_interacts (local_video w p).
Proof. unfold local_video. frame only_interacts. Qed.

Lemma open_video_interacts : keeps only_interacts (open_video w).
Proof. unfold open_video. frame only_interacts. Qed.

Hint Resolve send_text_message_interacts local_video_interacts
  open_video_interacts : frames.

Lemma keeps_grows_of_interacts {A} (m : M A) : keeps only_interacts m -> keeps grows m.
Proof. apply keeps_weaken, only_interacts_grows. Qed.

Lemma send_telegram_message_grows message media_url video_file_path post_url is_nsfw :
  keeps grows (send_telegram_message w message media_url video_file_path post_url is_nsfw).
Proof.
  unfold send_telegram_message. frame grows;
    try (apply keeps_grows_of_interacts; eauto with frames).
Qed.

End DeliveryFrames.

#[global] Hint Resolve save_processed_posts_grows save_failed_messages_grows
  save_failed_messages_never_raises add_failed_message_grows
  add_failed_message_never_raises requests_post_interacts
  send_text_message_interacts local_video_interacts open_video_interacts
  send_telegram_message_grows download_reddit_video_never_raises : frames.

Lemma keeps_queue_only_of_interacts {A} (m : M A) :
  keeps only_interacts m -> keeps queue_only m.
Proof. apply keeps_weaken, only_interacts_queue_only. Qed.

Section OrchestratorFrames.
Variable w : World.

Lemma cleanup_temp_file_interacts path : keeps only_interacts (cleanup_temp_file w path).
Proof. unfold cleanup_temp_file. frame only_interacts. Qed.

Lemma download_reddit_video_grows post : keeps grows (download_reddit_video w post).
Proof. apply keeps_grows_of_interacts. eauto with frames. Qed.

Lemma cleanup_temp_file_grows path : keeps grows (cleanup_temp_file w path).
Proof. apply keeps_grows_of_interacts, cleanup_temp_file_interacts. Qed.

Hint Resolve download_reddit_video_grows cleanup_temp_file_grows : frames.

Lemma process_post_grows post : keeps grows (process_post w post).
Proof. unfold process_post. frame grows. Qed.

Hint Resolve process_post_grows : frames.

Lemma process_posts_grows posts : keeps grows (process_posts w posts).
Proof. induction posts as [|post rest IH]; cbn [process_posts]; frame grows. Qed.

Hint Resolve process_posts_grows : frames.

Lemma check_subreddit_grows feed : keeps grows (check_subreddit w feed).
Proof. unfold check_subreddit. frame grows. Qed.

Lemma check_subreddit_never_raises feed : never_raises (check_subreddit w feed).
Proof. unfold check_subreddit. safe. Qed.

Hint Resolve check_subreddit_grows check_subreddit_never_raises : frames.

Lemma check_each_grows feed names :
  forall position, keeps grows (check_each w feed position names).
Proof.
  induction names as [|name rest IH]; intros position; cbn [check_each];
    frame grows.
Qed.

Lemma check_each_never_raises feed names :
  forall position, never_raises (check_each w feed position names).
Proof.
  induction names as [|name rest IH]; intros position; cbn [check_each];
    [apply never_raises_ret|].
  apply never_raises_bind; [apply check_subreddit_never_raises|intros _; apply IH].
Qed.

Hint Resolve check_each_grows : frames.

Lemma check_subreddits_grows feed : keeps grows (check_subreddits w feed).
Proof. unfold check_subreddits. frame grows. Qed.

(** The check of a bot whose configuration lists the subreddits. *)
Lemma check_subreddits_run feed names st :
  subreddits (config st) = Some names ->
  check_subreddits w feed st = check_each w feed 0 names st.
Proof. intros H. unfold check_subreddits, bind, get_state. by rewrite H. Qed.

Lemma check_subreddits_without_list feed st :
  subreddits (config st) = None ->
  check_subreddits w feed st = (Raise KeyError, st).
Proof. intros H. unfold check_subreddits, bind, get_state. by rewrite H. Qed.

End OrchestratorFrames.

Section DrainFrames.
Variable w : World.

Lemma queue_only_set_failed_messages f :
  keeps queue_only (modify (fun st => set_failed_messages (f st) st)).
Proof. intros st. cbn. unfold queue_only. cbn. done. Qed.

Lemma queue_only_set_failed_file f :
  keeps queue_only (modify (fun st => set_failed_file (f st) st)).
Proof. intros st. cbn. unfold queue_only. cbn. done. Qed.

Hint Resolve queue_only_set_failed_messages queue_only_set_failed_file : frames.

Lemma count_failure_queue_only i r : keeps queue_only (count_failure i r).
Proof. unfold count_failure. frame queue_only. Qed.

Lemma count_failure_never_raises i r : never_raises (count_failure i r).
Proof. unfold count_failure. safe. Qed.

Lemma send_text_message_queue_only message :
  keeps queue_only (send_text_message w message).
Proof. apply keeps_queue_only_of_interacts. eauto with frames. Qed.

Lemma save_failed_messages_queue_only : keeps queue_only (save_failed_messages w).
Proof. unfold save_failed_messages. frame queue_only. Qed.

Hint Resolve count_failure_queue_only count_failure_never_raises
  send_text_message_queue_only save_failed_messages_queue_only : frames.

Lemma retry_each_queue_only pending :
  forall i, keeps queue_only (retry_each w i pending).
Proof.
  induction pending as [|r rest IH]; intros i; cbn [retry_each]; frame queue_only.
Qed.

Hint Resolve retry_each_queue_only : frames.

Lemma retry_failed_messages_queue_only : keeps queue_only (retry_failed_messages w).
Proof. unfold retry_failed_messages. frame queue_only. Qed.

Lemma add_failed_message_queue_only message media_url post_url :
  keeps queue_only (add_failed_message w message media_url post_url).
Proof. unfold add_failed_message. frame queue_only. Qed.

Hint Resolve add_failed_message_queue_only : frames.

Lemma send_telegram_message_queue_only message media_url video_file_path post_url
    is_nsfw :
  keeps queue_only
    (send_telegram_message w message media_url video_file_path post_url is_nsfw).
Proof.
  unfold send_telegram_message. frame queue_only;
    try (apply keeps_queue_only_of_interacts; eauto with frames).
Qed.

End DrainFrames.

(** ** Facts about the string primitives *)

Lemma replace_go_absent (old new s : string) :
  contains old s = false -> replace_go old new 0 s = s.
Proof.
  induction s as [|c s IH]; [done|].
  cbn [contains replace_go]. intros H. apply orb_false_iff in H as [Hp Hc].
  rewrite Hp. by rewrite IH.
Qed.

Lemma replace_truthy (old new s : string) :
  truthy new = true -> truthy s = true -> truthy (replace old new s) = true.
Proof.
  intros Hn Hs. destruct s as [|c s]; [done|]. unfold replace. cbn [replace_go].
  destruct (String.prefix old (String c s)); [|done].
  by destruct new.
Qed.

Lemma prefix_before_char (n : string) (sep : ascii) (s : string) :
  String.prefix n (before_char sep s) = true -> String.prefix n s = true.
Proof.
  revert n. induction s as [|c s IH]; intros n; [done|].
  cbn [before_char]. destruct (Ascii.eqb c sep).
  - destruct n; [done|discriminate].
  - destruct n as [|a n]; [done|]. cbn. destruct (ascii_dec a c); [apply IH|done].
Qed.

Lemma contains_before_char (n : string) (sep : ascii) (s : string) :
  contains n (before_char sep s) = true -> contains n s = true.
Proof.
  induction s as [|c s IH]; [done|].
  cbn [before_char]. destruct (Ascii.eqb c sep) eqn:E.
  - cbn. destruct n; [done|discriminate].
  - cbn [contains]. intros H. apply orb_true_iff in H as [H|H]; apply orb_true_iff.
    + left. apply (prefix_before_char n sep (String c s)). cbn [before_char]. by rewrite E.
    + right. by apply IH.
Qed.

Lemma before_char_free (sep : ascii) (s : string) :
  contains (String sep EmptyString) (before_char sep s) = false.
Proof.
  induction s as [|c s IH]; [done|].
  cbn [before_char]. destruct (Ascii.eqb c sep) eqn:E; [done|].
  cbn [contains]. rewrite IH, orb_false_r. cbn.
  destruct (ascii_dec sep c) as [->|]; [|done]. by rewrite Ascii.eqb_refl in E.
Qed.

Lemma any_in_image_of_media (s : string) :
  any_in media_extensions s = false -> any_in image_extensions s = false.
Proof.
  unfold any_in, media_extensions, image_extensions. cbn.
  intros H. repeat (apply orb_false_iff in H as [? H]).
  repeat (apply orb_false_iff; split); done.
Qed.

(** ** Resolution of images and videos *)

(** X1.  Image resolution never returns an empty address: whatever
    [download_reddit_image] returns is a non-empty string. *)
Theorem download_reddit_image_not_empty (post : Post) (u : string) :
  download_reddit_image post = Some u -> truthy u = true.
Proof.
  unfold download_reddit_image.
  destruct (image_from_preview _ _) as [v|]; [|done].
  destruct (truthy v) eqn:Hv; [|done]. intros [= <-]. by apply replace_truthy.
Qed.

Lemma download_reddit_image_not_empty_witness :
  truthy "https://i.redd.it/x.png?a=1&b=2" = true.
Proof.
  apply (download_reddit_image_not_empty
           (link_post "https://i.redd.it/x.png?a=1&amp;b=2" None)).
  vm_compute. reflexivity.
Defined.

(** X2.  For a link post (not a self post) without media metadata
    whose address contains one of the image extensions, in any letter
    case, image resolution returns the address of the post with every
    [&amp;] replaced by [&]; an address without [&amp;] is returned as
    it is. *)
Theorem direct_image_link_resolves_to_itself (post : Post) :
  p_is_self post = false ->
  metadata_truthy (p_media_metadata post) = false ->
  any_in image_extensions (lower (p_url post)) = true ->
  download_reddit_image post = Some (replace "&amp;" "&" (p_url post))
  /\ (contains "&amp;" (p_url post) = false ->
      download_reddit_image post = Some (p_url post)).
Proof.
  intros Hself Hmeta Hext.
  assert (truthy (p_url post) = true) as Hne.
  { destruct (p_url post); [discriminate Hext|done]. }
  assert (download_reddit_image post = Some (replace "&amp;" "&" (p_url post))) as Hres.
  { unfold download_reddit_image, image_from_metadata, image_from_url,
      image_from_preview. rewrite Hmeta. cbn -[any_in replace].
    rewrite Hself, Hext. cbn -[any_in replace]. rewrite Hne.
    cbn -[any_in replace]. by rewrite Hne. }
  split; [done|]. intros Habs. rewrite Hres. unfold replace.
  by rewrite replace_go_absent.
Qed.

Lemma direct_image_link_resolves_to_itself_witness :
  download_reddit_image (link_post "https://i.redd.it/x.PNG?a=1&amp;b=2" None)
  = Some (replace "&amp;" "&" "https://i.redd.it/x.PNG?a=1&amp;b=2")
  /\ (contains "&amp;" "https://i.redd.it/x.PNG?a=1&amp;b=2" = false ->
      download_reddit_image (link_post "https://i.redd.it/x.PNG?a=1&amp;b=2" None)
      = Some "https://i.redd.it/x.PNG?a=1&amp;b=2").
Proof.
  apply (direct_image_link_resolves_to_itself
           (link_post "https://i.redd.it/x.PNG?a=1&amp;b=2" None));
    vm_compute; reflexivity.
Defined.

Lemma any_in_photo_of_media (s : string) :
  any_in media_extensions s = false -> any_in photo_extensions s = false.
Proof.
  unfold any_in, media_extensions, photo_extensions. cbn [existsb].
  intros H. repeat (apply orb_false_iff in H as [? H]).
  repeat match goal with
         | H : ?b = false |- context [?b] => rewrite H
         end.
  done.
Qed.

Lemma unresolved_without_media_content (w : World) (st : State) (post : Post) :
  has_media_content post = false ->
  select_video_url post = Ret None
  /\ download_reddit_video w post st = (Ret None, st)
  /\ download_reddit_image post = None.
Proof.
  unfold has_media_content. intros H.
  destruct (flag (p_is_video post)) eqn:Hv; [discriminate|].
  destruct (metadata_truthy (p_media_metadata post)) eqn:Hmm; [discriminate|].
  destruct (media_truthy (p_media post)) eqn:Hm; [discriminate|].
  destruct (preview_truthy (p_preview post)) eqn:Hp; [discriminate|].
  assert (select_video_url post = Ret None) as Hsel.
  { unfold select_video_url, video_direct. rewrite Hv, Hm, andb_false_r. cbn.
    unfold video_from_metadata. rewrite Hmm. cbn.
    unfold video_from_preview. by rewrite Hp. }
  split_and!; [done| |].
  - unfold download_reddit_video, try_except, bind, lift. by rewrite Hsel.
  - unfold download_reddit_image, image_from_metadata, image_from_url,
      image_from_preview. rewrite Hmm. cbn -[any_in]. rewrite Hp.
    destruct (p_is_self post); cbn -[any_in]; [done|].
    destruct (truthy (p_url post)) eqn:Hu; cbn -[any_in] in H.
    + apply orb_false_iff in H as [H _].
      by rewrite (any_in_image_of_media _ H).
    + destruct (p_url post); [|discriminate Hu]. done.
Qed.

(** X3.  A post that [has_media_content] rejects has nothing to
    resolve: no video address is selected, video resolution returns [None]
    without any interaction (the state is unchanged), and image resolution
    returns [None]. *)
Theorem no_media_content_resolves_nothing (w : World) (st : State) (post : Post) :
  has_media_content post = false ->
  select_video_url post = Ret None
  /\ download_reddit_video w post st = (Ret None, st)
  /\ download_reddit_image post = None.
Proof. apply unresolved_without_media_content. Qed.

Lemma no_media_content_resolves_nothing_witness :
  select_video_url text_post = Ret None
  /\ download_reddit_video (world Delivered) text_post idle = (Ret None, idle)
  /\ download_reddit_image text_post = None.
Proof.
  apply (no_media_content_resolves_nothing (world Delivered) idle text_post).
  reflexivity.
Defined.

(** X4.  When the [reddit_video] descriptor of [post.media] has no
    [fallback_url], for a video post or a self post, the selection raises
    [KeyError]; video resolution catches it and returns [None] without any
    interaction, whatever media metadata or preview the post has. *)
Theorem video_without_fallback_url_resolves_nothing (w : World) (st : State)
    (post : Post) (m : Media) (rv : RedditVideo) :
  p_media post = Some m ->
  reddit_video m = Some rv ->
  fallback_url rv = None ->
  flag (p_is_video post) || p_is_self post = true ->
  select_video_url post = Raise KeyError
  /\ download_reddit_video w post st = (Ret None, st).
Proof.
  intros Hm Hrv Hfb Hkind.
  assert (media_truthy (p_media post) = true) as Htruthy.
  { rewrite Hm. cbn. rewrite Hrv. done. }
  assert (select_video_url post = Raise KeyError) as Hsel.
  { unfold select_video_url, video_direct. rewrite Htruthy, Hm. cbn. rewrite Hrv.
    unfold fallback_of. rewrite Hfb.
    destruct (flag (p_is_video post)); cbn; [done|].
    cbn in Hkind. by rewrite Hkind. }
  split; [done|].
  unfold download_reddit_video, try_except, bind, lift. by rewrite Hsel.
Qed.

Lemma video_without_fallback_url_resolves_nothing_witness :
  select_video_url broken_video_post = Raise KeyError
  /\ download_reddit_video (world Delivered) broken_video_post idle = (Ret None, idle).
Proof.
  eapply (video_without_fallback_url_resolves_nothing (world Delivered) idle
            broken_video_post); reflexivity.
Defined.

(** X5.  When the selected address is non-empty and is not a
    manifest, video resolution issues exactly one download request, for
    the address cut at its first question mark, so the request carries no
    query string.  It returns the name of the temporary file when the
    request and the copy succeed and a temporary file could be created,
    and [None] otherwise. *)
Theorem plain_video_is_fetched_without_query (w : World) (st : State) (post : Post)
    (u : string) :
  select_video_url post = Ret (Some u) ->
  truthy u = true ->
  is_manifest u = false ->
  let run := download_reddit_video w post in
  value run st
  = Ret (match w_get w (clock st) with
         | Fetched true => w_mktemp w (S (clock st))
         | _ => None
         end)
  /\ events (exec run st)
     = EvGet (before_char "?" u) (w_get w (clock st)) :: events st
  /\ contains "?" (before_char "?" u) = false.
Proof.
  intros Hsel Hu Hman run. subst run.
  assert (strip_query u = before_char "?" u) as Hstrip.
  { unfold strip_query, any_in, manifest_markers. cbn [existsb].
    unfold is_manifest in Hman. by rewrite orb_false_r, Hman. }
  assert (is_manifest (before_char "?" u) = false) as Hman'.
  { unfold is_manifest in *. apply orb_false_iff in Hman as [H1 H2].
    apply orb_false_iff. split.
    - destruct (contains _ (before_char _ u)) eqn:E; [|done].
      apply contains_before_char in E. congruence.
    - destruct (contains "DASHPlaylist.mpd" (before_char _ u)) eqn:E; [|done].
      apply contains_before_char in E. congruence. }
  split_and!; [| |apply before_char_free].
  all: unfold value, exec, download_reddit_video, try_except, bind at 1, lift;
    rewrite Hsel, Hu; cbn zeta; rewrite Hstrip, Hman';
    unfold fetch_to_temp, named_temporary_file; unfold_effects; cbn;
    destruct (w_get w (clock st)) as [[|]|]; cbn; try done;
    destruct (w_mktemp w (S (clock st))); cbn; done.
Qed.

Lemma plain_video_is_fetched_without_query_witness :
  let u := "https://v.redd.it/abc/DASH_480.mp4?source=fallback" in
  let run := download_reddit_video (world Delivered) preview_video_post in
  value run idle
  = Ret (match w_get (world Delivered) (clock idle) with
         | Fetched true => w_mktemp (world Delivered) (S (clock idle))
         | _ => None
         end)
  /\ events (exec run idle)
     = EvGet (before_char "?" u) (w_get (world Delivered) (clock idle)) :: events idle
  /\ contains "?" (before_char "?" u) = false.
Proof.
  apply (plain_video_is_fetched_without_query (world Delivered) idle preview_video_post
           "https://v.redd.it/abc/DASH_480.mp4?source=fallback");
    vm_compute; reflexivity.
Defined.

(** X6.  Video resolution never raises, and it changes nothing of
    the bot: the configuration, the processed set, the failure queue and
    both files are as before; the trace and the clock only advance. *)
Theorem download_reddit_video_only_interacts (w : World) (st : State) (post : Post) :
  (exists r, value (download_reddit_video w post) st = Ret r)
  /\ only_interacts st (exec (download_reddit_video w post) st).
Proof.
  split.
  - apply download_reddit_video_never_raises.
  - apply download_reddit_video_interacts.
Qed.

(** ** The state files and the failure queue *)

(** X7.  Saving the processed set does not change it in memory.
    When the write succeeds the save returns and a later load gives back
    the same set; when the write is refused the save raises and the file
    is as before; when the write fails after the file was truncated the
    save raises and a later load raises [JSONDecodeError]. *)
Theorem processed_posts_save_then_load (w : World) (st : State) :
  let st' := exec (save_processed_posts w) st in
  processed_posts st' = processed_posts st
  /\ match w_write w (clock st) with
     | Written =>
         value (save_processed_posts w) st = Ret tt
         /\ load_processed_posts (processed_file st') = Ret (processed_posts st)
     | WriteRefused =>
         value (save_processed_posts w) st = Raise PermissionError
         /\ processed_file st' = processed_file st
     | WriteTorn =>
         value (save_processed_posts w) st = Raise PermissionError
         /\ load_processed_posts (processed_file st') = Raise JSONDecodeError
     end.
Proof.
  cbn zeta. unfold value, exec, save_processed_posts. unfold_effects. cbn.
  destruct (w_write w (clock st)); cbn; done.
Qed.

(** X8.  Saving the failure queue never raises and does not change
    the queue in memory.  A later load returns the saved queue when the
    write succeeded, what the old file gives when the write was refused,
    and the empty queue when the write left a garbled file. *)
Theorem failed_messages_save_then_load (w : World) (st : State) :
  let st' := exec (save_failed_messages w) st in
  value (save_failed_messages w) st = Ret tt
  /\ failed_messages st' = failed_messages st
  /\ load_failed_messages (failed_file st')
     = match w_write w (clock st) with
       | Written => Ret (failed_messages st)
       | WriteRefused => load_failed_messages (failed_file st)
       | WriteTorn => Ret []
       end.
Proof.
  cbn zeta. unfold value, exec, save_failed_messages. unfold_effects. cbn.
  destruct (w_write w (clock st)); cbn; done.
Qed.

(** X9.  A send enqueues at most one failure record: the queue after
    [send_telegram_message] is the queue before, or the queue before
    followed by one record with the message, the post address, a non-empty
    media reference that is the media address or the video path, and a
    retry counter of 0.  When the media address and the video path are
    both missing or empty, nothing is enqueued and the queue file is not
    touched: a failed text-only message is never retried.  A send never
    changes the processed set or its file. *)
Theorem send_telegram_message_queue_growth (w : World) (st : State)
    (message : string) (media_url video_file_path post_url : option string)
    (is_nsfw : bool) :
  let st' :=
    exec (send_telegram_message w message media_url video_file_path post_url is_nsfw) st in
  (failed_messages st' = failed_messages st
   \/ exists media ts,
        truthy_opt (Some media) = true
        /\ (media_url = Some media \/ video_file_path = Some media)
        /\ failed_messages st'
           = failed_messages st
             ++ [{| fr_message := message; fr_media_url := Some media;
                    fr_post_url := post_url; fr_timestamp := ts;
                    fr_retry_count := 0 |}])
  /\ (truthy_opt media_url = false -> truthy_opt video_file_path = false ->
      failed_messages st' = failed_messages st /\ failed_file st' = failed_file st)
  /\ processed_posts st' = processed_posts st
  /\ processed_file st' = processed_file st.
Proof.
  cbn zeta.
  refine ((fun ab cd => conj (proj1 ab) (conj (proj2 ab) cd)) _ _);
    [|by destruct (send_telegram_message_queue_only w message media_url
                     video_file_path post_url is_nsfw st) as (_ & ? & ? & _)].
  unfold exec, send_telegram_message, local_video, open_video, send_text_message,
    requests_post, add_failed_message, save_failed_messages, photo_address, py_or.
  unfold_effects.
  destruct (credentials (config st)) as [[token chat]|e] eqn:Hkeys;
    [|split; [by left|done]].
  destruct video_file_path as [path|]; [destruct (truthy path) eqn:Hpath|].
  all: destruct media_url as [u|];
    [destruct (truthy u) eqn:Hu;
     [destruct (any_in photo_extensions (lower u)) eqn:Hext|]|].
  all: repeat (cbn; rewrite ?Hpath, ?Hu, ?Hkeys; match goal with
    | |- context [w_exists ?w ?n ?p] => destruct (w_exists w n p) eqn:?
    | |- context [w_open_ok ?w ?n] => destruct (w_open_ok w n) eqn:?
    | |- context [w_post ?w ?n] => destruct (w_post w n) eqn:?
    | |- context [w_write ?w ?n] => destruct (w_write w n) eqn:?
    end).
  all: cbn; rewrite ?Hpath, ?Hu, ?Hkeys; cbn.
  all: split; [|first [done | by intros | intros; congruence]].
  all: first [ by left
             | right; eexists _, _; split_and!; [|left; reflexivity|reflexivity]; done
             | right; eexists _, _; split_and!; [|right; reflexivity|reflexivity]; done ].
Qed.

(** ** The loop body *)

Section Marking.
Variable w : World.

(** A send: it leaves the processed set and its file alone, its trace
    has the requests it made, and it returns [true] only after a request
    that was answered with success. *)
Lemma send_telegram_message_outcome (st : State) (message : string)
    (media_url video_file_path post_url : option string) (is_nsfw : bool) :
  exists (o : Outcome bool) (st' : State) (sent : list Event),
    send_telegram_message w message media_url video_file_path post_url is_nsfw st
    = (o, st')
    /\ processed_posts st' = processed_posts st
    /\ processed_file st' = processed_file st
    /\ events st' = sent ++ events st
    /\ Forall (carried media_url video_file_path) sent
    /\ (o = Ret true -> exists r older, sent = EvPost r Delivered :: older).
Proof.
  unfold send_telegram_message, local_video, open_video, send_text_message,
    requests_post, add_failed_message, save_failed_messages, photo_address.
  unfold_effects.
  destruct (credentials (config st)) as [[token chat]|e] eqn:Hkeys;
    [|exists (Raise e), st, []; split_and!; try done; constructor].
  destruct video_file_path as [path|]; [destruct (truthy path) eqn:Hpath|].
  all: destruct media_url as [u|];
    [destruct (truthy u) eqn:Hu;
     [destruct (any_in photo_extensions (lower u)) eqn:Hext|]|].
  all: repeat (cbn; rewrite ?Hpath, ?Hu, ?Hkeys; match goal with
    | |- context [w_exists ?w ?n ?p] => destruct (w_exists w n p) eqn:?
    | |- context [w_open_ok ?w ?n] => destruct (w_open_ok w n) eqn:?
    | |- context [w_post ?w ?n] => destruct (w_post w n) eqn:?
    | |- context [w_write ?w ?n] => destruct (w_write w n) eqn:?
    end).
  all: cbn; rewrite ?Hkeys; cbn.
  all: eexists _, _, _; split; [reflexivity|]; split_and!; [done|done| | |].
  all: try first [ exact (eq_refl : _ = [] ++ _)
                 | exact (eq_refl : _ = [_] ++ _)
                 | exact (eq_refl : _ = [_; _] ++ _) ].
  all: try (repeat constructor; done).
  all: first [ discriminate | (intros _; eexists _, _; reflexivity) ].
Qed.

Lemma cleanup_temp_file_outcome (path : string) (st : State) :
  exists st',
    cleanup_temp_file w path st = (Ret tt, st')
    /\ processed_posts st' = processed_posts st
    /\ processed_file st' = processed_file st
    /\ events st' = events st.
Proof.
  unfold cleanup_temp_file. unfold_effects.
  destruct (truthy path); cbn; [destruct (w_unlink_ok w (clock st)); cbn|];
    eexists; split_and!; reflexivity.
Qed.

Lemma save_processed_posts_outcome (st : State) :
  exists o st',
    save_processed_posts w st = (o, st')
    /\ processed_posts st' = processed_posts st
    /\ events st' = events st.
Proof.
  unfold save_processed_posts. unfold_effects. cbn.
  destruct (w_write w (clock st)); cbn; eexists _, _; split_and!; reflexivity.
Qed.

(** The loop body, step by step: a post already seen or skipped causes
    no event; otherwise the video is resolved, the send follows with the
    file, or else with the address chosen for the post, and the post is
    marked exactly when the send returned [true]. *)
Lemma process_post_steps (st : State) (post : Post) :
  exists o st',
    process_post w post st = (o, st')
    /\ ((events st' = events st
         /\ (processed_posts st' = processed_posts st
             \/ (processed_posts st' = {[ p_id post ]} ∪ processed_posts st
                 /\ flag (send_text_only_posts (config st)) = false
                 /\ has_media_content post = false)))
        \/ exists video st1 sent,
             download_reddit_video w post st = (Ret video, st1)
             /\ Forall (carried (if truthy_opt video then None
                                 else choose_media_url post (flag (p_over_18 post)))
                                video) sent
             /\ ((processed_posts st' = processed_posts st
                  /\ events st' = sent ++ events st1)
                 \/ (processed_posts st' = {[ p_id post ]} ∪ processed_posts st
                     /\ (exists r older, sent = EvPost r Delivered :: older)
                     /\ events st' = EvSleep 2 :: sent ++ events st1))).
Proof.
  unfold process_post. unfold bind at 1. unfold get_state. cbn beta iota.
  case_bool_decide as Hseen;
    [eexists _, _; split; [reflexivity|left; split; [done|by left]]|].
  destruct (negb (flag (send_text_only_posts (config st)))
            && negb (has_media_content post)) eqn:Hskip.
  { apply andb_true_iff in Hskip as [H1%negb_true_iff H2%negb_true_iff].
    eexists _, _; split; [reflexivity|]. left. cbn. split; [done|]. by right. }
  unfold bind at 1.
  pose proof (download_reddit_video_interacts w post st) as Hdl.
  destruct (download_reddit_video_never_raises w post st) as [video Hvideo].
  destruct (download_reddit_video w post st) as [o1 st1]. cbn in Hdl, Hvideo.
  subst o1. destruct Hdl as (_ & Hpp1 & _).
  unfold bind at 1.
  match goal with
  | |- context [send_telegram_message w ?m ?u ?v ?p ?n st1] =>
      destruct (send_telegram_message_outcome st1 m u v p n)
        as (o2 & st2 & sent & -> & Hpp2 & _ & Hev2 & Hsent & Htrue)
  end.
  destruct o2 as [b|e].
  2: { eexists _, _; split; [reflexivity|]. right. exists video, st1, sent.
       split_and!; [done|done|]. left. split; [congruence|done]. }
  unfold bind at 1.
  assert (exists st3, (match video with
                       | Some path => if truthy path then cleanup_temp_file w path
                                      else ret tt
                       | None => ret tt
                       end) st2 = (Ret tt, st3)
                      /\ processed_posts st3 = processed_posts st2
                      /\ events st3 = events st2) as (st3 & -> & Hpp3 & Hev3).
  { destruct video as [path|]; [destruct (truthy path)|]; try by exists st2.
    destruct (cleanup_temp_file_outcome path st2) as (st3 & ? & ? & ? & ?).
    by exists st3. }
  unfold bind at 1. destruct b.
  - unfold mark_processed, emit. unfold_effects.
    match goal with
    | |- context [if ?c then _ else _] => destruct c
    end.
    + match goal with
      | |- context [save_processed_posts w ?s] =>
          destruct (save_processed_posts_outcome s) as (o & st4 & -> & Hpp4 & Hev4)
      end.
      eexists _, _; split; [reflexivity|]. right. exists video, st1, sent.
      split_and!; [done|done|]. right. rewrite Hpp4, Hev4. cbn.
      rewrite Hpp3, Hpp2, Hpp1, Hev3, Hev2. split_and!; [done|by apply Htrue|done].
    + eexists _, _; split; [reflexivity|]. right. exists video, st1, sent.
      split_and!; [done|done|]. right. cbn.
      rewrite Hpp3, Hpp2, Hpp1, Hev3, Hev2. split_and!; [done|by apply Htrue|done].
  - unfold_effects.
    match goal with
    | |- context [if ?c then _ else _] => destruct c
    end.
    + match goal with
      | |- context [save_processed_posts w ?s] =>
          destruct (save_processed_posts_outcome s) as (o & st4 & -> & Hpp4 & Hev4)
      end.
      eexists _, _; split; [reflexivity|]. right. exists video, st1, sent.
      split_and!; [done|done|]. left. rewrite Hpp4, Hev4. split; congruence.
    + eexists _, _; split; [reflexivity|]. right. exists video, st1, sent.
      split_and!; [done|done|]. left. cbn. split; congruence.
Qed.

Lemma process_post_outcome (st : State) (post : Post) :
  exists o st',
    process_post w post st = (o, st')
    /\ (processed_posts st' = processed_posts st
        \/ (processed_posts st' = {[ p_id post ]} ∪ processed_posts st
            /\ ((flag (send_text_only_posts (config st)) = false
                 /\ has_media_content post = false /\ events st' = events st)
                \/ exists r older,
                     events st' = EvSleep 2 :: EvPost r Delivered :: older))).
Proof.
  destruct (process_post_steps st post) as (o & st' & Hrun & Hsteps).
  exists o, st'. split; [done|].
  destruct Hsteps as [[Hev [Hpp|(Hpp & Hflag & Hbare)]]
                     |(video & st1 & sent & _ & _ & [[Hpp Hev]|(Hpp & Hlast & Hev)])].
  - by left.
  - right. split; [done|]. by left.
  - by left.
  - right. split; [done|]. right. destruct Hlast as (r & older & ->).
    rewrite Hev. by eexists _, _.
Qed.

(** X10.  The loop body adds at most the identifier of its own post
    to the processed set, and only in two cases: the post is skipped as
    text-only (no media content, [send_text_only_posts] off), with no
    request made, or the last request recorded is one that the
    endpoint answered with success, followed by the two-second pause. *)
Theorem process_post_marks_only_delivered (st : State) (post : Post) :
  let st' := exec (process_post w post) st in
  processed_posts st' = processed_posts st
  \/ (processed_posts st' = {[ p_id post ]} ∪ processed_posts st
      /\ ((flag (send_text_only_posts (config st)) = false
           /\ has_media_content post = false /\ events st' = events st)
          \/ exists r older, events st' = EvSleep 2 :: EvPost r Delivered :: older)).
Proof.
  cbn zeta. destruct (process_post_outcome st post) as (o & st' & Hrun & H).
  unfold exec. by rewrite Hrun.
Qed.

End Marking.

(** ** Manifests are converted, never fetched *)











(** ** The subject name, the glyph and the selection of a video *)

Lemma substring_span_prefix (s : string) :
  String.substring 0 (span_not_pipe s) s = before_char pipe s.
Proof.
  induction s as [|c s IH]; [done|]. cbn.
  destruct (Ascii.eqb c pipe); [done|]. cbn. by rewrite IH.
Qed.

Lemma contains_pipe_cons (c : ascii) (s : string) :
  contains "|" (String c s) = Ascii.eqb c pipe || contains "|" s.
Proof.
  cbn [contains String.prefix]. unfold pipe.
  destruct (ascii_dec "|" c) as [<-|Hne].
  - by destruct s.
  - destruct (Ascii.eqb_spec c "|") as [->|_]; [done|]. done.
Qed.

(** What follows the longest prefix without a pipe: nothing, or a pipe. *)
Lemma substring_span_rest (s : string) :
  spaces_then_pipe
    (String.substring (span_not_pipe s) (String.length s - span_not_pipe s) s)
  = contains "|" s.
Proof.
  induction s as [|c s IH]; [done|].
  rewrite contains_pipe_cons. cbn [span_not_pipe String.length].
  destruct (Ascii.eqb_spec c pipe) as [->|Hne].
  - cbn. done.
  - cbn [String.substring Nat.sub]. by rewrite IH.
Qed.

Lemma try_group_no_pipe (title : string) (k : nat) :
  contains "|" title = false -> try_group k title = None.
Proof.
  intros Hno. induction k as [|k IH]; [done|]. cbn [try_group].
  destruct (spaces_then_pipe _) eqn:Hsp; [|done].
  exfalso. unfold spaces_then_pipe in Hsp.
  set (rest := String.substring (S k) (String.length title - S k) title) in *.
  assert (contains "|" rest = true) as Hrest.
  { clear -Hsp. induction rest as [|c r IH]; [done|]. cbn [lstrip] in Hsp.
    rewrite contains_pipe_cons.
    destruct (isspace c).
    - rewrite (IH Hsp). by rewrite orb_true_r.
    - by rewrite Hsp. }
  assert (forall n m s, contains "|" (String.substring n m s) = true ->
                        contains "|" s = true) as Hsub.
  { clear. intros n m s. revert n m. induction s as [|c s IH]; intros n m H.
    - by destruct n, m.
    - destruct n as [|n].
      + destruct m as [|m]; [done|]. cbn [String.substring] in H.
        rewrite contains_pipe_cons in *.
        apply orb_true_iff in H as [->|H]; [done|].
        apply (IH 0 m) in H. rewrite H. by rewrite orb_true_r.
      + cbn [String.substring] in H. apply IH in H.
        rewrite contains_pipe_cons, H. by rewrite orb_true_r. }
  apply Hsub in Hrest. congruence.
Qed.

(** The pattern matches exactly the titles with a pipe that is not their
    first character, and the group is what stands before the first pipe. *)
Lemma search_name_pattern_spec (title : string) :
  search_name_pattern title
  = if contains "|" title && truthy (before_char pipe title)
    then Some (before_char pipe title) else None.
Proof.
  unfold search_name_pattern.
  destruct (contains "|" title) eqn:Hc; cbn [andb]; [|by apply try_group_no_pipe].
  destruct (span_not_pipe title) as [|k] eqn:Hk.
  - cbn. destruct title as [|c t]; [done|]. cbn in *.
    destruct (Ascii.eqb c pipe); [done|discriminate Hk].
  - cbn [try_group]. rewrite <- Hk.
    rewrite substring_span_rest, Hc, substring_span_prefix.
    destruct title as [|c t]; [done|]. cbn in *.
    destruct (Ascii.eqb c pipe); [discriminate Hk|done].
Qed.

Lemma before_char_no_sep (sep : ascii) (s : string) (c : ascii) :
  c ∈ String.list_ascii_of_string (before_char sep s) -> c <> sep.
Proof.
  induction s as [|d s IH]; cbn; [by intros ?%elem_of_nil|].
  destruct (Ascii.eqb_spec d sep) as [->|Hne]; cbn; [by intros ?%elem_of_nil|].
  intros [->|Hin]%elem_of_cons; [done|]. by apply IH.
Qed.

Lemma lstrip_chars (s : string) (c : ascii) :
  c ∈ String.list_ascii_of_string (lstrip s) -> c ∈ String.list_ascii_of_string s.
Proof.
  induction s as [|d s IH]; [done|]. cbn [lstrip].
  destruct (isspace d); [|done]. intros H. cbn. right. by apply IH.
Qed.

Lemma rstrip_chars (s : string) (c : ascii) :
  c ∈ String.list_ascii_of_string (rstrip s) -> c ∈ String.list_ascii_of_string s.
Proof.
  induction s as [|d s IH]; [done|]. cbn [rstrip].
  destruct (rstrip s) as [|e r] eqn:Hr.
  - destruct (isspace d); [by intros ?%elem_of_nil|].
    cbn. intros [->|?%elem_of_nil]%elem_of_cons; [left|done].
  - cbn [String.list_ascii_of_string]. intros [->|Hin]%elem_of_cons; [left|right].
    by apply IH.
Qed.

Lemma strip_chars (s : string) (c : ascii) :
  c ∈ String.list_ascii_of_string (strip s) -> c ∈ String.list_ascii_of_string s.
Proof. unfold strip. intros H. by apply lstrip_chars, rstrip_chars. Qed.

Lemma remove_chars_chars (cls : ascii -> bool) (s : string) (c : ascii) :
  c ∈ String.list_ascii_of_string (remove_chars cls s) -> c ∈ String.list_ascii_of_string s.
Proof.
  induction s as [|d s IH]; [done|]. cbn [remove_chars].
  destruct (cls d); cbn.
  - intros H. right. by apply IH.
  - intros [->|H]%elem_of_cons; [left|right; by apply IH].
Qed.

Lemma list_ascii_of_string_app (a b : string) :
  String.list_ascii_of_string (a +:+ b) = String.list_ascii_of_string a ++ String.list_ascii_of_string b.
Proof.
  induction a as [|c a IH]; [done|].
  change (String c a +:+ b) with (String c (a +:+ b)).
  cbn [String.list_ascii_of_string]. by rewrite IH.
Qed.

Lemma split_go_chars (s cur word : string) (c : ascii) :
  word ∈ split_go cur s -> c ∈ String.list_ascii_of_string word ->
  c ∈ String.list_ascii_of_string cur \/ c ∈ String.list_ascii_of_string s.
Proof.
  revert cur. induction s as [|d s IH]; intros cur Hw Hc; cbn [split_go] in Hw.
  - destruct (truthy cur); [|by apply elem_of_nil in Hw].
    apply list_elem_of_singleton in Hw as ->. by left.
  - destruct (isspace d).
    + destruct (truthy cur).
      * apply elem_of_cons in Hw as [->|Hw]; [by left|].
        destruct (IH _ Hw Hc) as [?%elem_of_nil|?]; [done|]. right. cbn. by right.
      * destruct (IH _ Hw Hc) as [?%elem_of_nil|?]; [done|]. right. cbn. by right.
    + destruct (IH _ Hw Hc) as [Hin|Hin].
      * rewrite list_ascii_of_string_app in Hin. apply elem_of_app in Hin as [?|Hin];
          [by left|]. right. cbn in *. apply list_elem_of_singleton in Hin as ->. left.
      * right. cbn. by right.
Qed.

(** X11.  Whenever [extract_model_name] returns a name, the title
    contains a pipe, the name is what stands before the first pipe with
    the surrounding white space stripped, the name contains no pipe, and
    one of its characters is an upper-case letter.  So a title without a
    pipe, or with no upper-case letter before its first pipe, has no
    name. *)
Theorem extract_model_name_shape (title name : string) :
  extract_model_name title = Some name ->
  name = strip (before_char "|" title)
  /\ contains "|" title = true
  /\ contains "|" name = false
  /\ exists c, c ∈ String.list_ascii_of_string name /\ isupper c = true.
Proof.
  unfold extract_model_name. rewrite search_name_pattern_spec.
  destruct (contains "|" title) eqn:Hc; [|done]. cbn [andb].
  destruct (truthy (before_char pipe title)); [|done].
  destruct (existsb _ _) eqn:Hex; [|done]. intros [= <-].
  split_and!; [done|done| |].
  - destruct (contains "|" (strip (before_char "|" title))) eqn:E; [|done].
    exfalso.
    assert (forall s, contains "|" s = true -> "|"%char ∈ String.list_ascii_of_string s) as Hin.
    { clear. induction s as [|c s IH]; [done|]. rewrite contains_pipe_cons.
      intros [Hc%Ascii.eqb_eq|H]%orb_true_iff; cbn; [rewrite Hc; left|].
      right. by apply IH. }
    apply Hin, strip_chars, before_char_no_sep in E. done.
  - apply existsb_exists in Hex as (word & Hw & Hlook).
    apply filter_In in Hw as [Hw _]. apply list_elem_of_In in Hw.
    destruct word as [|c word]; [done|]. cbn in Hlook.
    apply andb_true_iff in Hlook as [Hup _].
    exists c. split; [|done].
    unfold split in Hw.
    destruct (split_go_chars _ _ _ c Hw ltac:(left)) as [?%elem_of_nil|Hin]; [done|].
    by apply remove_chars_chars in Hin.
Qed.

Lemma extract_model_name_shape_witness :
  "Ana Maria" = strip (before_char "|" "Ana Maria | Special post")
  /\ contains "|" "Ana Maria | Special post" = true
  /\ contains "|" "Ana Maria" = false
  /\ exists c, c ∈ String.list_ascii_of_string "Ana Maria" /\ isupper c = true.
Proof.
  apply (extract_model_name_shape "Ana Maria | Special post" "Ana Maria").
  vm_compute. reflexivity.
Defined.

Lemma truthy_app_r (a b : string) : truthy b = true -> truthy (a +:+ b) = true.
Proof. intros H. destruct a; [done|done]. Qed.

(** X12.  For a video post without media descriptor whose address
    contains v.redd.it, the selected address is the address of the post
    followed by /DASH_720.mp4, whatever media metadata and preview the post
    has. *)
Theorem video_without_descriptor_uses_dash_720 (post : Post) :
  flag (p_is_video post) = true ->
  media_truthy (p_media post) = false ->
  contains "v.redd.it" (p_url post) = true ->
  select_video_url post = Ret (Some (p_url post +:+ "/DASH_720.mp4")).
Proof.
  intros Hv Hm Hurl. unfold select_video_url, video_direct.
  rewrite Hv, Hm. cbn [obind truthy_opt negb andb]. rewrite Hurl.
  cbn [obind]. unfold video_from_metadata.
  cbn [truthy_opt]. rewrite truthy_app_r by done. cbn [negb andb].
  unfold video_from_preview.
  cbn [truthy_opt]. rewrite truthy_app_r by done. done.
Qed.

Lemma video_without_descriptor_uses_dash_720_witness :
  select_video_url bare_video_post
  = Ret (Some (p_url bare_video_post +:+ "/DASH_720.mp4")).
Proof. apply (video_without_descriptor_uses_dash_720 bare_video_post); reflexivity. Defined.

Lemma any_in_app (l1 l2 : list string) (s : string) :
  any_in (l1 ++ l2) s = any_in l1 s || any_in l2 s.
Proof. unfold any_in. apply existsb_app. Qed.

(** X13.  A post without media content is never labelled as image,
    video, YouTube or gallery: its glyph is the link glyph when it is a
    link post with a non-empty address, the text glyph otherwise, and no
    glyph at all when [debug_emoji] is off. *)
Theorem glyph_without_media_content (cfg : Config) (post : Post) :
  has_media_content post = false ->
  glyph cfg post = (if default true (debug_emoji cfg)
                    then if truthy (p_url post) && negb (p_is_self post)
                         then "🔗" else "📝"
                    else EmptyString).
Proof.
  unfold glyph, has_media_content. intros H.
  destruct (default true (debug_emoji cfg)); [|done].
  destruct (flag (p_is_video post)); [done|].
  destruct (metadata_truthy _); [done|].
  destruct (media_truthy _); [done|].
  destruct (preview_truthy _); [done|].
  rewrite andb_comm in H.
  destruct (truthy (p_url post) && negb (p_is_self post)); [|done].
  change media_extensions with (image_extensions ++ video_extensions) in H.
  rewrite any_in_app in H.
  apply orb_false_iff in H as [[Himg Hvid]%orb_false_iff Hdom].
  rewrite Himg, Hvid. unfold video_domains, any_in in Hdom. cbn [existsb] in Hdom.
  repeat match goal with
         | H : (_ || _) = false |- _ => apply orb_false_iff in H as [? ?]
         end.
  repeat match goal with
         | H : ?b = false |- context [?b] => rewrite H
         end.
  done.
Qed.

Lemma glyph_without_media_content_witness :
  glyph sample_config text_post
  = (if default true (debug_emoji sample_config)
     then if truthy (p_url text_post) && negb (p_is_self text_post)
          then "🔗" else "📝"
     else EmptyString).
Proof. apply (glyph_without_media_content sample_config text_post). reflexivity. Defined.

Section TextDelivery.
Variable w : World.

Lemma photo_address_without_media_content (post : Post) :
  has_media_content post = false ->
  photo_address (choose_media_url post (flag (p_over_18 post))) = None.
Proof.
  intros H. unfold choose_media_url.
  destruct (unresolved_without_media_content w idle post H) as (_ & _ & ->).
  unfold has_media_content in H.
  destruct (flag (p_is_video post)); [done|].
  destruct (metadata_truthy _); [done|].
  destruct (media_truthy _); [done|].
  destruct (preview_truthy _); [done|].
  destruct (p_is_self post); cbn -[any_in] in *; [by destruct (flag _)|].
  assert (truthy (p_url post) && any_in photo_extensions (lower (p_url post)) = false)
    as Hno.
  { destruct (truthy (p_url post)); [|done]. cbn -[any_in] in *.
    apply orb_false_iff in H as [H _]. by apply any_in_photo_of_media. }
  rewrite orb_true_r. unfold photo_address. by rewrite Hno.
Qed.

Lemma process_post_without_media (st : State) (post : Post)
    (token chat : string) :
  credentials (config st) = Ret (token, chat) ->
  p_id post ∉ processed_posts st ->
  flag (send_text_only_posts (config st)) = true ->
  has_media_content post = false ->
  exists o st',
    process_post w post st = (o, st')
    /\ failed_messages st' = failed_messages st
    /\ events st'
       = (if delivered (w_post w (clock st)) then [EvSleep 2] else [])
         ++ EvPost (SendMessage token chat (format_post_message (config st) post))
                   (w_post w (clock st))
         :: events st
    /\ processed_posts st'
       = if delivered (w_post w (clock st))
         then {[ p_id post ]} ∪ processed_posts st else processed_posts st.
Proof.
  intros Hkeys Hnew Htext Hbare.
  unfold process_post. unfold bind at 1. unfold get_state. cbn beta iota.
  rewrite bool_decide_false by done. rewrite Htext, Hbare. cbn [negb andb].
  unfold bind at 1.
  destruct (unresolved_without_media_content w st post Hbare) as (_ & -> & _).
  cbn [truthy_opt].
  unfold bind at 1.
  unfold send_telegram_message. unfold bind at 1. unfold get_state. cbn beta iota.
  unfold bind at 1. unfold lift. rewrite Hkeys.
  unfold try_except at 1. unfold bind at 1. cbn [local_video ret].
  rewrite (photo_address_without_media_content post Hbare).
  rewrite (send_text_message_run w token chat) by done.
  unfold bind at 1. cbn [ret].
  destruct (delivered (w_post w (clock st))) eqn:Hd.
  - unfold mark_processed, emit. unfold_effects.
    match goal with
    | |- context [if ?c then _ else _] => destruct c
    end.
    + unfold save_processed_posts. unfold_effects. cbn.
      destruct (w_write w _); cbn; eexists _, _; split_and!; reflexivity.
    + cbn. eexists _, _; split_and!; reflexivity.
  - unfold_effects.
    match goal with
    | |- context [if ?c then _ else _] => destruct c
    end.
    + unfold save_processed_posts. unfold_effects. cbn.
      destruct (w_write w _); cbn; eexists _, _; split_and!; reflexivity.
    + cbn. eexists _, _; split_and!; reflexivity.
Qed.

(** X14.  With [send_text_only_posts] on, a new post without media
    content is sent as exactly one text request carrying the formatted
    message: no photo, video or download request is made, nothing is
    enqueued, and the post is marked as processed (and the two-second pause
    made) exactly when the endpoint answered the request with success.
    The token and the chat of the request are those of the configuration. *)
Theorem post_without_media_is_sent_as_text (st : State) (post : Post)
    (token chat : string) :
  credentials (config st) = Ret (token, chat) ->
  p_id post ∉ processed_posts st ->
  flag (send_text_only_posts (config st)) = true ->
  has_media_content post = false ->
  let st' := exec (process_post w post) st in
  let answer := w_post w (clock st) in
  failed_messages st' = failed_messages st
  /\ events st'
     = (if delivered answer then [EvSleep 2] else [])
       ++ EvPost (SendMessage token chat (format_post_message (config st) post))
                 answer
       :: events st
  /\ processed_posts st'
     = if delivered answer
       then {[ p_id post ]} ∪ processed_posts st else processed_posts st.
Proof.
  intros Hkeys Hnew Htext Hbare. cbn zeta.
  destruct (process_post_without_media st post token chat Hkeys Hnew Htext Hbare)
    as (o & st' & Hrun & H).
  unfold exec. by rewrite Hrun.
Qed.

End TextDelivery.

Lemma post_without_media_is_sent_as_text_witness :
  let st' := exec (process_post (world Delivered) text_post) chatty in
  let answer := w_post (world Delivered) (clock chatty) in
  failed_messages st' = failed_messages chatty
  /\ events st'
     = (if delivered answer then [EvSleep 2] else [])
       ++ EvPost (SendMessage "123:abc" "-100"
                    (format_post_message (config chatty) text_post)) answer
       :: events chatty
  /\ processed_posts st'
     = if delivered answer
       then {[ p_id text_post ]} ∪ processed_posts chatty
       else processed_posts chatty.
Proof.
  apply (post_without_media_is_sent_as_text (world Delivered) chatty text_post
           "123:abc" "-100");
    [reflexivity|apply not_elem_of_empty|reflexivity|reflexivity].
Defined.

(** ** A check of the subreddits *)

Lemma subseteq_union_chain (X Y a b p : gset string) :
  X ⊆ b ∪ Y -> Y ⊆ a ∪ p -> X ⊆ (a ∪ b) ∪ p.
Proof.
  intros H1 H2 x Hx. apply H1 in Hx. rewrite !elem_of_union.
  apply elem_of_union in Hx as [?|Hx]; [by left; right|].
  apply H2 in Hx. apply elem_of_union in Hx as [?|?]; [by left; left|by right].
Qed.

Section Checking.
Variable w : World.

Lemma process_post_adds_own_id (post : Post) (st : State) :
  processed_posts (exec (process_post w post) st)
  ⊆ {[ p_id post ]} ∪ processed_posts st.
Proof.
  destruct (process_post_outcome w st post) as (o & st' & Hrun & H).
  unfold exec. rewrite Hrun. cbn [snd].
  destruct H as [->|[-> _]]; set_solver.
Qed.

Lemma process_posts_adds_feed_ids (posts : list Post) (st : State) :
  processed_posts (exec (process_posts w posts) st)
  ⊆ list_to_set (p_id <$> posts) ∪ processed_posts st.
Proof.
  revert st. induction posts as [|post rest IH]; intros st; [set_solver|].
  cbn [process_posts]. unfold exec, bind.
  pose proof (process_post_adds_own_id post st) as Hone. unfold exec in Hone.
  cbn [fmap list_fmap list_to_set].
  destruct (process_post w post st) as [[[]|e] st1]; cbn [snd] in *.
  - specialize (IH st1). unfold exec in IH. by eapply subseteq_union_chain.
  - etrans; [exact Hone|]. apply union_mono_r, union_subseteq_l.
Qed.

Lemma check_subreddit_adds_feed_ids (feed : Outcome (list Post)) (st : State) :
  processed_posts (exec (check_subreddit w feed) st) ⊆ feed_ids feed ∪ processed_posts st.
Proof.
  unfold exec, check_subreddit, try_except, bind, lift, except_all.
  destruct feed as [posts|e]; cbn; [|set_solver].
  pose proof (process_posts_adds_feed_ids posts st) as H. unfold exec in H.
  by destruct (process_posts w posts st) as [[[]|e] st1].
Qed.

Lemma check_each_adds_feed_ids (feed : Feed) (names : list string) :
  forall (position : nat) (st : State),
    processed_posts (exec (check_each w feed position names) st)
    ⊆ feeds_ids (answers feed position names) ∪ processed_posts st.
Proof.
  induction names as [|name rest IH]; intros position st; [set_solver|].
  cbn [check_each answers]. unfold exec, bind.
  pose proof (check_subreddit_adds_feed_ids (feed position name) st) as Hone.
  unfold exec in Hone.
  change (feeds_ids (feed position name :: answers feed (S position) rest))
    with (feed_ids (feed position name) ∪ feeds_ids (answers feed (S position) rest)).
  destruct (check_subreddit w (feed position name) st) as [[[]|e] st1]; cbn [snd] in *.
  - specialize (IH (S position) st1). unfold exec in IH.
    by eapply subseteq_union_chain.
  - etrans; [exact Hone|]. apply union_mono_r, union_subseteq_l.
Qed.

(** X15.  A check of the subreddits raises exactly when the
    configuration has no list of subreddits: the list is looked up before
    the loop, so the check then raises [KeyError] and changes nothing.
    With the list, the check never raises, whatever the subreddits and the
    environment answer, and it adds to the processed set only identifiers
    of posts that the subreddits returned.  In both cases it leaves the
    configuration as it was, only adds to the processed set, only appends
    to the failure queue and only extends the trace. *)
Theorem check_subreddits_frame (feed : Feed) (st : State) :
  let st' := exec (check_subreddits w feed) st in
  match subreddits (config st) with
  | None => check_subreddits w feed st = (Raise KeyError, st)
  | Some names =>
      value (check_subreddits w feed) st = Ret tt
      /\ processed_posts st'
         ⊆ feeds_ids (answers feed 0 names) ∪ processed_posts st
  end
  /\ config st' = config st
  /\ processed_posts st ⊆ processed_posts st'
  /\ failed_messages st `prefix_of` failed_messages st'
  /\ events st `suffix_of` events st'.
Proof.
  cbn zeta.
  destruct (check_subreddits_grows w feed st) as (Hc & Hp & Hf & He & _).
  split_and!; try done.
  destruct (subreddits (config st)) as [names|] eqn:Hnames.
  - unfold value, exec. rewrite (check_subreddits_run w feed names) by done.
    destruct (check_each_never_raises w feed names 0 st) as [[] Hv].
    split; [done|]. apply check_each_adds_feed_ids.
  - by apply check_subreddits_without_list.
Qed.

Lemma process_posts_seen (posts : list Post) (st : State) :
  forallb (fun post => bool_decide (p_id post ∈ processed_posts st)) posts = true ->
  process_posts w posts st = (Ret tt, st).
Proof.
  induction posts as [|post rest IH]; [done|]. cbn [forallb process_posts].
  intros [Hpost Hrest]%andb_true_iff. unfold bind at 1.
  unfold process_post at 1. unfold bind at 1. unfold get_state. cbn beta iota.
  rewrite Hpost. cbn. by apply IH.
Qed.

Lemma check_each_seen (feed : Feed) (names : list string) :
  forall (position : nat) (st : State),
    forallb (all_seen (processed_posts st)) (answers feed position names) = true ->
    check_each w feed position names st = (Ret tt, st).
Proof.
  induction names as [|name rest IH]; intros position st; [done|].
  cbn [forallb check_each answers].
  intros [Hfeed Hrest]%andb_true_iff. unfold bind at 1.
  assert (check_subreddit w (feed position name) st = (Ret tt, st)) as ->.
  { unfold check_subreddit, try_except, bind, lift, except_all.
    destruct (feed position name) as [posts|e]; [|done]. cbn in Hfeed.
    by rewrite process_posts_seen. }
  by apply IH.
Qed.

(** X16.  When every post that the configured subreddits return is
    already in the processed set (a subreddit whose request raises returns
    none), the check does nothing: no request, no write, the state is
    unchanged. *)
Theorem check_subreddits_seen_is_noop (feed : Feed) (names : list string)
    (st : State) :
  subreddits (config st) = Some names ->
  forallb (all_seen (processed_posts st)) (answers feed 0 names) = true ->
  check_subreddits w feed st = (Ret tt, st).
Proof.
  intros Hnames Hseen. rewrite (check_subreddits_run w feed names) by done.
  by apply check_each_seen.
Qed.

End Checking.

Lemma check_subreddits_seen_is_noop_witness :
  let seen := exec (check_subreddits (world Delivered) (every (Ret [text_post]))) idle in
  check_subreddits (world Delivered) (every (Ret [text_post])) seen = (Ret tt, seen).
Proof.
  apply (check_subreddits_seen_is_noop (world Delivered) (every (Ret [text_post]))
           ["pics"]
           (exec (check_subreddits (world Delivered) (every (Ret [text_post]))) idle));
    vm_compute; reflexivity.
Defined.

(** ** Start, stop and restart *)

Lemma construct_ret (config_file : StateFile Config) (reddit_ok : bool)
    (disk bot : State) :
  Lifecycle.construct config_file reddit_ok disk = Ret bot ->
  config_file = Stored (config bot)
  /\ reddit_ok = true
  /\ load_processed_posts (processed_file disk) = Ret (processed_posts bot)
  /\ load_failed_messages (failed_file disk) = Ret (failed_messages bot)
  /\ processed_file bot = processed_file disk
  /\ failed_file bot = failed_file disk.
Proof.
  unfold Lifecycle.construct, Lifecycle.load_config, Lifecycle.setup_reddit.
  destruct config_file as [| | |cfg]; cbn; try discriminate.
  destruct reddit_ok; [|discriminate].
  destruct (load_processed_posts (processed_file disk)) as [ids|e]; [|discriminate].
  destruct (load_failed_messages (failed_file disk)) as [records|e]; [|discriminate].
  by intros [= <-].
Qed.

(** X17.  The constructor of the bot succeeds exactly when the
    configuration file holds a configuration, the connection to Reddit
    succeeds, and the file of processed posts is neither unreadable nor
    garbled.  The state of the failure-queue file never prevents the
    start. *)
Theorem construct_succeeds_iff (config_file : StateFile Config)
    (reddit_ok : bool) (disk : State) :
  (exists bot, Lifecycle.construct config_file reddit_ok disk = Ret bot)
  <-> (exists cfg, config_file = Stored cfg)
      /\ reddit_ok = true
      /\ processed_file disk <> Unreadable
      /\ processed_file disk <> Garbled.
Proof.
  split.
  - intros [bot H]. apply construct_ret in H as (Hc & Hr & Hp & _).
    split_and!; [by eexists|done| |]; intros Hf; rewrite Hf in Hp; discriminate Hp.
  - intros ([cfg ->] & -> & Hu & Hg).
    unfold Lifecycle.construct, Lifecycle.load_config, Lifecycle.setup_reddit,
      load_processed_posts, load_failed_messages. cbn.
    destruct (processed_file disk); try done;
      destruct (failed_file disk); cbn; by eexists.
Qed.

Lemma save_processed_posts_ret (w : World) (st st' : State) :
  save_processed_posts w st = (Ret tt, st') ->
  processed_file st' = Stored (processed_posts st')
  /\ processed_posts st' = processed_posts st
  /\ failed_file st' = failed_file st
  /\ failed_messages st' = failed_messages st.
Proof.
  unfold save_processed_posts. unfold_effects. cbn.
  destruct (w_write w (clock st)); cbn; intros [= <-]; done.
Qed.

(** The two lookups that [run] makes before its [try] change nothing. *)
Lemma announce_run (check_interval : option Z) (st : State) :
  Lifecycle.announce check_interval st
  = (match subreddits (config st), check_interval with
     | Some _, Some _ => Ret tt
     | _, _ => Raise KeyError
     end, st).
Proof.
  unfold Lifecycle.announce, Lifecycle.interval_of. unfold_effects.
  destruct (subreddits (config st)), check_interval; done.
Qed.

Lemma run_ret (w : World) (cycles : list Feed) (check_interval : option Z)
    (st st' : State) :
  Lifecycle.run w cycles check_interval st = (Ret tt, st') ->
  processed_file st' = Stored (processed_posts st').
Proof.
  unfold Lifecycle.run. unfold bind at 1. rewrite announce_run.
  destruct (subreddits (config st)), check_interval; try discriminate.
  destruct (Lifecycle.run_cycles w cycles (Some z) st) as [[[]|e] st1].
  - intros H. by apply save_processed_posts_ret in H as (? & _).
  - destruct (save_processed_posts w st1) as [[[]|e'] st2]; discriminate.
Qed.

(** X18.  When [main] returns the exit status 0, the file of processed
    posts holds exactly the processed set that the bot had in memory, and
    a bot constructed again from the files left behind, with a working
    connection to Reddit, starts with that same set. *)
Theorem clean_exit_resumes (w : World) (config_file : StateFile Config)
    (reddit_ok : bool) (cycles : list Feed) (check_interval : option Z)
    (disk : State) :
  let result := Lifecycle.main w config_file reddit_ok cycles check_interval disk in
  fst result = 0 ->
  processed_file (snd result) = Stored (processed_posts (snd result))
  /\ exists bot,
       Lifecycle.construct config_file true (snd result) = Ret bot
       /\ processed_posts bot = processed_posts (snd result).
Proof.
  cbn zeta. unfold Lifecycle.main.
  destruct (Lifecycle.construct config_file reddit_ok disk) as [bot|e] eqn:Hbot;
    [|discriminate].
  destruct (Lifecycle.run w cycles check_interval bot) as [[[]|e] st'] eqn:Hrun;
    [|discriminate].
  intros _. cbn [snd]. apply run_ret in Hrun. split; [done|].
  apply construct_ret in Hbot as (-> & _).
  unfold Lifecycle.construct, Lifecycle.load_config, Lifecycle.setup_reddit. cbn.
  rewrite Hrun. cbn. unfold load_failed_messages.
  destruct (failed_file st'); cbn; by eexists.
Qed.

Lemma clean_exit_resumes_witness :
  let result :=
    Lifecycle.main (world Delivered) (Stored sample_config) true
      [every (Ret [text_post]); every (Ret [])] (Some 300%Z) idle in
  processed_file (snd result) = Stored (processed_posts (snd result))
  /\ exists bot,
       Lifecycle.construct (Stored sample_config) true (snd result) = Ret bot
       /\ processed_posts bot = processed_posts (snd result).
Proof.
  apply (clean_exit_resumes (world Delivered) (Stored sample_config) true
           [every (Ret [text_post]); every (Ret [])] (Some 300%Z) idle).
  vm_compute. reflexivity.
Defined.

(** ** The service *)

Section ServiceCycle.
Variable w : World.

Lemma replicate_shift {A} (k : nat) (x : A) (l : list A) :
  replicate k x ++ x :: l = x :: replicate k x ++ l.
Proof. induction k as [|k IH]; [done|]. cbn. by rewrite IH. Qed.

Lemma wait_run (interval : nat) (signal_after : option nat) (st : State) :
  Service.wait interval signal_after st
  = (Ret tt,
     set_events
       (replicate (match signal_after with
                   | Some k => interval `min` k
                   | None => interval
                   end) (EvSleep 1) ++ events st) st).
Proof.
  revert signal_after st.
  induction interval as [|n IH]; intros signal_after st; cbn [Service.wait].
  - destruct signal_after; cbn; by destruct st.
  - destruct signal_after as [[|k]|]; cbn [fmap option_fmap option_map pred].
    + cbn. by destruct st.
    + unfold bind, emit, modify. rewrite IH. cbn.
      by rewrite replicate_shift.
    + unfold bind, emit, modify. rewrite IH. cbn.
      by rewrite replicate_shift.
Qed.

(** X19.  A cycle of the service, for an initialised bot, never
    raises: it returns true exactly when the configuration lists the
    subreddits and the save of the processed set succeeded.  It then waits
    one second at a time, [check_interval] times (300 when the
    configuration has no entry, none for a negative entry) or until the
    signal.  It never retries the failure queue: the queue after the cycle
    is the queue that the check left, so records are only appended. *)
Theorem service_cycle_never_drains (feed : Feed)
    (check_interval : option Z) (signal_after : option nat) (st : State) :
  let cycle := Service.run_bot_cycle w feed check_interval signal_after in
  let checked := exec (check_subreddits w feed) st in
  let saved :=
    bool_decide (is_Some (subreddits (config st)))
    && negb (write_raises (w_write w (clock checked))) in
  let seconds :=
    match signal_after with
    | Some k => Z.to_nat (default 300%Z check_interval) `min` k
    | None => Z.to_nat (default 300%Z check_interval)
    end in
  value cycle st = Ret saved
  /\ events (exec cycle st)
     = (if saved then replicate seconds (EvSleep 1) else []) ++ events checked
  /\ failed_messages (exec cycle st) = failed_messages checked
  /\ failed_messages st `prefix_of` failed_messages (exec cycle st)
  /\ processed_posts (exec cycle st) = processed_posts checked.
Proof.
  cbn zeta. unfold value, exec, Service.run_bot_cycle, try_except, except_all.
  unfold bind at 1 4 7 10 13.
  destruct (subreddits (config st)) as [names|] eqn:Hnames.
  2: { rewrite (check_subreddits_without_list w feed st Hnames). cbn. done. }
  rewrite (check_subreddits_run w feed names) by done.
  destruct (check_each_never_raises w feed names 0 st) as [[] Hv].
  destruct (check_each_grows w feed names 0 st) as (_ & _ & Hq & _).
  destruct (check_each w feed 0 names st) as [o st1]. cbn in Hv, Hq. subst o.
  rewrite bool_decide_true by done.
  cbn [snd andb]. unfold save_processed_posts, bind, tick, modify, ret, raise.
  destruct (w_write w (clock st1)); cbn [write_raises negb fst snd];
    rewrite ?wait_run; cbn; done.
Qed.

(** X20.  The last save of the service never raises and changes
    nothing in memory.  The failure queue is written only if the write of
    the processed set succeeded: when that first write fails, the
    failure-queue file is left as it was. *)
Theorem service_final_save (st : State) :
  let st' := exec (Service.final_save w) st in
  value (Service.final_save w) st = Ret tt
  /\ processed_posts st' = processed_posts st
  /\ failed_messages st' = failed_messages st
  /\ match w_write w (clock st) with
     | Written =>
         processed_file st' = Stored (processed_posts st)
         /\ failed_file st'
            = written (w_write w (S (clock st))) (failed_file st) (failed_messages st)
     | _ => failed_file st' = failed_file st
     end.
Proof.
  cbn zeta. unfold value, exec, Service.final_save, save_processed_posts,
    save_failed_messages. unfold_effects. cbn.
  destruct (w_write w (clock st)); cbn; try done.
  destruct (w_write w (S (clock st))); cbn; done.
Qed.

End ServiceCycle.

(** ** The setup *)

Lemma rstrip_idempotent (s : string) : rstrip (rstrip s) = rstrip s.
Proof.
  induction s as [|c s IH]; [done|]. cbn [rstrip].
  destruct (rstrip s) as [|d r] eqn:Hr.
  - destruct (isspace c) eqn:Hc; [done|]. cbn. by rewrite Hc.
  - cbn [rstrip] in *. by rewrite IH.
Qed.

Lemma lstrip_head (s : string) :
  match lstrip s with
  | EmptyString => True
  | String c _ => isspace c = false
  end.
Proof.
  induction s as [|c s IH]; [done|]. cbn [lstrip].
  destruct (isspace c) eqn:Hc; [done|]. done.
Qed.

Lemma lstrip_rstrip (s : string) :
  match s with
  | EmptyString => True
  | String c _ => isspace c = false
  end ->
  lstrip (rstrip s) = rstrip s.
Proof.
  destruct s as [|c s]; [done|]. intros Hc. cbn [rstrip].
  destruct (rstrip s); rewrite ?Hc; cbn [lstrip]; by rewrite Hc.
Qed.

Lemma strip_idempotent (s : string) : strip (strip s) = strip s.
Proof.
  unfold strip. rewrite lstrip_rstrip by apply lstrip_head.
  apply rstrip_idempotent.
Qed.

Lemma contains_char_elem (c : ascii) (s : string) :
  contains (String c EmptyString) s = true -> c ∈ String.list_ascii_of_string s.
Proof.
  induction s as [|d s IH]; [done|]. cbn [contains String.prefix].
  destruct (ascii_dec c d) as [<-|_]; [intros _; left|].
  cbn. intros H. right. by apply IH.
Qed.

Lemma split_on_pieces (sep : ascii) (s piece : string) :
  piece ∈ Setup.split_on sep s -> sep ∉ String.list_ascii_of_string piece.
Proof.
  revert piece. induction s as [|c s IH]; intros piece; cbn [Setup.split_on].
  - intros ->%list_elem_of_singleton. apply not_elem_of_nil.
  - destruct (Ascii.eqb_spec c sep) as [->|Hne].
    + intros [->|Hin]%elem_of_cons; [apply not_elem_of_nil|by apply IH].
    + destruct (Setup.split_on sep s) as [|p ps].
      * intros ->%list_elem_of_singleton. cbn.
        intros [?|?%elem_of_nil]%elem_of_cons; [congruence|done].
      * intros [->|Hin]%elem_of_cons.
        -- cbn. intros [?|Hin]%elem_of_cons; [congruence|].
           by apply (IH p); [left|].
        -- apply IH. by right.
Qed.

(** X21.  In the configuration that the setup writes, the list
    of subreddits is present and every name in it is non-empty, has no
    white space at either end and contains no comma; the link of the bot is
    never empty (the default replaces a blank answer); the token and the
    chat identifier are present and have no white space at either end. *)
Theorem create_config_is_clean (typed : Setup.Answers) :
  let cfg := Setup.create_config typed in
  (exists names,
     subreddits cfg = Some names
     /\ Forall (fun name => truthy name = true /\ strip name = name
                            /\ contains "," name = false) names)
  /\ truthy_opt (bot_link cfg) = true
  /\ exists token chat,
       Delivery.credentials cfg = Ret (token, chat)
       /\ strip token = token
       /\ strip chat = chat.
Proof.
  cbn zeta. unfold Setup.create_config, Delivery.credentials.
  cbn [telegram subreddits bot_link bot_token chat_id].
  split_and!.
  - eexists. split; [reflexivity|].
    unfold Setup.subreddits_of. apply Forall_fmap, Forall_forall.
    intros piece Hin. apply list_elem_of_In, filter_In in Hin as [Hin Hkeep].
    apply list_elem_of_In in Hin. cbn. split_and!; [done|apply strip_idempotent|].
    destruct (contains "," (strip piece)) eqn:Hc; [|done]. exfalso.
    apply contains_char_elem, strip_chars in Hc.
    by apply (split_on_pieces _ _ _ Hin).
  - cbn. by destruct (truthy (strip (Setup.bot_link_input typed))) eqn:E.
  - eexists _, _. split; [reflexivity|]. split; apply strip_idempotent.
Qed.

(** ** The order of the queue, ties between previews, a negative interval *)

Lemma survivors_sublist (w : World) (q : list FailureRecord) (c : nat) :
  survivors w c q `sublist_of` (bump <$> q).
Proof.
  revert c. induction q as [|r q IH]; intros c; cbn [survivors fmap list_fmap];
    [constructor|].
  destruct (delivered (w_post w c)); [by apply sublist_cons|].
  destruct (3 <=? S (fr_retry_count r))%nat; [by apply sublist_cons|].
  by apply sublist_skip.
Qed.

(** X22.  A drain keeps the order of the failure queue: the records
    that remain are, in their original order, records of the queue before
    the drain with the counter incremented.  It changes neither the
    configuration nor the processed set nor its file. *)
Theorem drain_keeps_order (w : World) (st : State) :
  let st' := exec (retry_failed_messages w) st in
  failed_messages st' `sublist_of` (bump <$> failed_messages st)
  /\ config st' = config st
  /\ processed_posts st' = processed_posts st
  /\ processed_file st' = processed_file st.
Proof.
  cbn zeta.
  destruct (retry_failed_messages_queue_only w st) as (Hc & Hp & Hf & _ & _).
  split_and!; try done.
  rewrite drain_queue. apply survivors_sublist.
Qed.

(** X23.  Enqueueing never raises.  It appends one record with the
    given message, media reference and post address, the current time and
    a retry counter of 0, and saves the queue at once: a later load
    returns the queue with the new record when the write succeeded, what
    the old file gives when the write was refused, and the empty queue when
    the write left a garbled file. *)
Theorem add_failed_message_persists (w : World) (st : State) (message : string)
    (media_url post_url : option string) :
  let st' := exec (add_failed_message w message media_url post_url) st in
  value (add_failed_message w message media_url post_url) st = Ret tt
  /\ failed_messages st'
     = failed_messages st
       ++ [{| fr_message := message; fr_media_url := media_url;
              fr_post_url := post_url; fr_timestamp := w_now w (clock st);
              fr_retry_count := 0 |}]
  /\ load_failed_messages (failed_file st')
     = match w_write w (S (clock st)) with
       | Written => Ret (failed_messages st')
       | WriteRefused => load_failed_messages (failed_file st)
       | WriteTorn => Ret []
       end.
Proof.
  cbn zeta. unfold value, exec, add_failed_message, save_failed_messages.
  unfold_effects. cbn.
  destruct (w_write w (S (clock st))); cbn; done.
Qed.

(** X24.  Among the previews of an image entry, the address taken is
    that of the first preview of largest area: every preview before it is
    strictly smaller, every preview after it is not larger. *)
Theorem largest_preview_is_first_maximum (info : MediaInfo)
    (p0 : PreviewVariant) (ps : list PreviewVariant) :
  mi_p info = Some (p0 :: ps) ->
  exists l1 v l2,
    p0 :: ps = l1 ++ v :: l2
    /\ Forall (fun x => (area x < area v)%Z) l1
    /\ Forall (fun x => (area x <= area v)%Z) l2
    /\ largest_preview_url info = pv_u v.
Proof.
  intros Hp. unfold largest_preview_url. rewrite Hp.
  destruct (max_by_first_maximum area ps p0) as (l1 & l2 & Heq & H1 & H2).
  by exists l1, (max_by area p0 ps), l2.
Qed.

Lemma largest_preview_is_first_maximum_witness :
  exists l1 v l2,
    default [] (mi_p previews_only) = l1 ++ v :: l2
    /\ Forall (fun x => (area x < area v)%Z) l1
    /\ Forall (fun x => (area x <= area v)%Z) l2
    /\ largest_preview_url previews_only = pv_u v.
Proof.
  refine (largest_preview_is_first_maximum previews_only _ _ _). reflexivity.
Defined.

Lemma retries_no_sleep (w : World) (cfg : Config) (q : list FailureRecord)
    (c n : nat) :
  EvSleep n ∉ retries w cfg c q.
Proof.
  unfold retries. destruct (Delivery.credentials cfg) as [[token chat]|e];
    [|apply not_elem_of_nil].
  revert c. induction q as [|r q IH]; intros c; cbn [attempts].
  - apply not_elem_of_nil.
  - intros [?|?]%elem_of_cons; [done|]. by eapply IH.
Qed.

Lemma sleep_negative (seconds : Z) (st : State) :
  (seconds < 0)%Z ->
  exists e, Lifecycle.sleep seconds st = (Raise e, st).
Proof.
  intros Hneg. unfold Lifecycle.sleep.
  destruct (seconds <? -9223372036)%Z; [by eexists|].
  apply Z.ltb_lt in Hneg. rewrite Hneg. by eexists.
Qed.

Lemma run_negative_interval (w : World) (feed : Feed) (rest : list Feed)
    (check_interval : Z) (st : State) :
  (check_interval < 0)%Z ->
  exists e st',
    Lifecycle.run w (feed :: rest) (Some check_interval) st = (Raise e, st')
    /\ forall n, EvSleep n ∈ events st' ->
                 EvSleep n ∈ events (snd (check_subreddits w feed st)).
Proof.
  intros Hneg. unfold Lifecycle.run. unfold bind at 1. rewrite announce_run.
  destruct (subreddits (config st)) as [names|] eqn:Hnames.
  2: { rewrite (check_subreddits_without_list w feed st Hnames). by eexists _, _. }
  cbn [Lifecycle.run_cycles]. unfold bind at 1. unfold Lifecycle.run_cycle.
  unfold bind at 1.
  rewrite (check_subreddits_run w feed names st Hnames).
  destruct (check_each_never_raises w feed names 0 st) as [[] Hv].
  destruct (check_each w feed 0 names st) as [o st1]. cbn in Hv. subst o. cbn [snd].
  unfold bind at 1.
  destruct (save_processed_posts_outcome w st1) as (o2 & st2 & Hsave & _ & Hev2).
  rewrite Hsave. destruct o2 as [[]|e2].
  - unfold bind at 1.
    destruct (retry_failed_messages_run w st2) as (st3 & Hretry & _ & Hev3 & _).
    rewrite Hretry. unfold bind at 1. unfold Lifecycle.interval_of at 1. unfold ret at 1.
    destruct (sleep_negative check_interval st3 Hneg) as [e Hsleep3]. rewrite Hsleep3.
    destruct (save_processed_posts_outcome w st3) as (o4 & st4 & Hsave4 & _ & Hev4).
    rewrite Hsave4.
    assert (forall n, EvSleep n ∈ events st4 -> EvSleep n ∈ events st1) as Hsleep.
    { intros n. rewrite Hev4, Hev3, Hev2.
      intros [Hin|Hin]%elem_of_app; [|done].
      apply list_elem_of_In, in_rev, list_elem_of_In in Hin.
      by apply retries_no_sleep in Hin. }
    destruct o4 as [[]|e4]; by eexists _, _.
  - destruct (save_processed_posts_outcome w st2) as (o4 & st4 & Hsave4 & _ & Hev4).
    rewrite Hsave4.
    assert (forall n, EvSleep n ∈ events st4 -> EvSleep n ∈ events st1) as Hsleep.
    { intros n. by rewrite Hev4, Hev2. }
    destruct o4 as [[]|e4]; by eexists _, _.
Qed.

(** X25.  With a negative [check_interval], [run] ends with an
    exception during its first cycle at the latest (the sleep raises, or
    the save raised before it, or the configuration lists no subreddits),
    and it never waits: the trace has no pause besides those of the
    check. *)
Theorem negative_interval_stops_the_bot (w : World) (feed : Feed)
    (rest : list Feed) (check_interval : Z) (st : State) :
  (check_interval < 0)%Z ->
  (exists e,
     value (Lifecycle.run w (feed :: rest) (Some check_interval)) st = Raise e)
  /\ forall n,
       EvSleep n
         ∈ events (exec (Lifecycle.run w (feed :: rest) (Some check_interval)) st) ->
       EvSleep n ∈ events (exec (check_subreddits w feed) st).
Proof.
  intros Hneg.
  destruct (run_negative_interval w feed rest check_interval st Hneg)
    as (e & st' & Hrun & Hsleep).
  unfold value, exec. rewrite Hrun. split; [by exists e|done].
Qed.

Lemma negative_interval_stops_the_bot_witness :
  (exists e,
     value (Lifecycle.run (world Delivered)
              [every (Ret [text_post]); every (Ret [])] (Some (-1)%Z)) idle
     = Raise e)
  /\ forall n,
       EvSleep n
         ∈ events (exec (Lifecycle.run (world Delivered)
                           [every (Ret [text_post]); every (Ret [])]
                           (Some (-1)%Z)) idle) ->
       EvSleep n
         ∈ events (exec (check_subreddits (world Delivered)
                           (every (Ret [text_post]))) idle).
Proof.
  apply (negative_interval_stops_the_bot (world Delivered)
           (every (Ret [text_post])) [every (Ret [])] (-1)%Z idle).
  reflexivity.
Defined.
